(** * A deferred task scheduler for interrupt-driven main loops

    Shallow embedding of [include/scheduler/scheduler.hpp] (the class
    template [Scheduler<CPU, MaxTaskCount>]) and of the test helper of
    [Tests/SchedulerTests.cpp], followed by the properties of the task
    table: dispatch of due tasks, ordering, capacity, identifiers.

    Conventions of the embedding.
    - [uint32_t] values (ticks, delays, identifiers) are integers of [Z];
      every wrap-around of the source is written out with [U32.wrap], and
      [static_cast<int32_t>] is [U32.signed].
    - The array [_taskList[MaxTaskCount]] is a [list] that is read with
      [!!!] and written with [<[i:=x]>]; the well-formedness predicate [wf]
      says that it has [MaxTaskCount] slots and that [_taskCount] does not
      exceed it, so that no access of the source is out of range.
    - [_taskCount] and the loop indices are [int]s that stay within
      [-1 .. MaxTaskCount]; they are natural numbers here, and the one loop
      whose index reaches [-1] is written over [i + 1].
    - [CPU::getSystemTick()] is sampled exactly once by [scheduleTask] and
      by [update]; the sampled value is the argument [now].  The critical
      sections do not change the data and are not modelled.
    - A completion handler may call back into the scheduler; its effect on
      the scheduler is the argument [invoke] of [update_loop]. *)

From Stdlib Require Import ZArith Lia.
From stdpp Require Import base list sorting.

(** ** 32-bit arithmetic *)

Module U32.
Local Open Scope Z_scope.

Definition modulus : Z := 2 ^ 32.
Definition half : Z := 2 ^ 31.

(** Conversion to [uint32_t]. *)
Definition wrap (x : Z) : Z := x mod modulus.

Definition add (a b : Z) : Z := wrap (a + b).
Definition sub (a b : Z) : Z := wrap (a - b).

(** [static_cast<int32_t>(x)] on a two's complement machine. *)
Definition signed (x : Z) : Z :=
  if wrap x <? half then wrap x else wrap x - modulus.

(** Distance of [x] from a base tick [b], counted forwards. *)
Definition offset (b x : Z) : Z := wrap (x - b).
End U32.

(** ** The scheduler *)

Section Scheduler.
Context {Func Param : Type}.

(** [struct Task]; [func] and [param] are nullable pointers. *)
Record Task := mkTask {
  executeTime : Z;
  func : option Func;
  param : option Param;
  id : Z
}.

(** The default member initialisers of [Task]. *)
Definition default_task : Task := mkTask 0 None None 0.

#[export] Instance Task_inhabited : Inhabited Task := populate default_task.

(** The data members of [Scheduler]. *)
Record Sched := mkSched {
  _taskList : list Task;
  _taskCount : nat;
  _id : Z
}.

Variable MaxTaskCount : nat.

(** A freshly constructed scheduler: [_taskList{}], [_taskCount = 0],
    [_id = 1]. *)
Definition init : Sched :=
  mkSched (replicate MaxTaskCount default_task) 0 1.

(** [for (int k = i + 1; k < _taskCount; k++) _taskList[k - 1] = _taskList[k];]
    with [j = k - 1] and [n = _taskCount - (i + 1)] iterations left. *)
Fixpoint shift_left (n j : nat) (l : list Task) : list Task :=
  match n with
  | O => l
  | S n' => shift_left n' (S j) (<[j := l !!! S j]> l)
  end.

(** The body of the [if] that removes slot [i]: shift, then
    [_taskCount = _taskCount - 1]. *)
Definition remove_at (i : nat) (s : Sched) : Sched :=
  mkSched (shift_left (_taskCount s - S i) i (_taskList s))
          (_taskCount s - 1)
          (_id s).

(** [for (int i = 0; i < _taskCount; i++) if (_taskList[i].id == taskId) ... break;]
    the index of the first live slot that holds [taskId]; [n] slots are
    left to look at, starting at [i]. *)
Fixpoint find_id (n i : nat) (taskId : Z) (l : list Task) : option nat :=
  match n with
  | O => None
  | S n' =>
      if (id (l !!! i) =? taskId)%Z then Some i
      else find_id n' (S i) taskId l
  end.

(** The search-and-remove loop shared by [unscheduleTask] and by the
    reuse branch of [scheduleTask]. *)
Definition remove_id (taskId : Z) (s : Sched) : Sched :=
  match find_id (_taskCount s) 0 taskId (_taskList s) with
  | Some i => remove_at i s
  | None => s
  end.

Definition unscheduleTask (taskId : Z) (s : Sched) : Sched :=
  remove_id taskId s.

(** [static_cast<int32_t>(a - b) < 0]: tick [a] is strictly before [b]. *)
Definition before (a b : Z) : bool :=
  (U32.signed (U32.sub a b) <? 0)%Z.

(** [while (i >= 0 && static_cast<int32_t>(target_time - _taskList[i].executeTime) < 0)
      { _taskList[i + 1] = _taskList[i]; i--; }]
    The argument [j] is [i + 1]; the result is the final [i + 1] and the
    array. *)
Fixpoint insert_shift (j : nat) (target_time : Z) (l : list Task)
  : nat * list Task :=
  match j with
  | O => (O, l)
  | S i =>
      if before target_time (executeTime (l !!! i))
      then insert_shift i target_time (<[S i := l !!! i]> l)
      else (S i, l)
  end.

(** [scheduleTask(func, param, delay, reuseId)]; the result is the
    returned identifier and the new state.  The four assignments to the
    fields of [_taskList[i + 1]] overwrite the whole slot.  The caller
    passes a handler: [func] is declared [_Nonnull], an annotation that
    the compiler does not enforce, and a call that passes [nullptr] all
    the same is not covered by this definition. *)
Definition scheduleTask (now : Z) (f : Func) (p : option Param)
    (delay reuseId : Z) (s : Sched) : Z * Sched :=
  let target_time := U32.add now delay in
  let s1 := if (reuseId =? 0)%Z then s else remove_id reuseId s in
  if MaxTaskCount <=? _taskCount s1 then (0%Z, s1)
  else
    let '(slot, l) := insert_shift (_taskCount s1) target_time (_taskList s1) in
    let '(tid, next) :=
      if (reuseId =? 0)%Z then (_id s1, U32.add (_id s1) 1)
      else (reuseId, _id s1) in
    (tid,
     mkSched (<[slot := mkTask target_time (Some f) p tid]> l)
             (S (_taskCount s1))
             next).

(** What running [task.func(task.param)] does to the scheduler. *)
Variable invoke : option Func → option Param → Sched → Sched.

(** The [while (true)] loop of [update], for the sampled tick [now].  The
    result is the list of the tasks whose handler was called, in call
    order, and the final state; [None] when [fuel] iterations did not
    reach a [break] or the [return]. *)
Fixpoint update_loop (fuel : nat) (now : Z) (s : Sched)
  : option (list Task * Sched) :=
  match fuel with
  | O => None
  | S fuel' =>
      if _taskCount s =? 0 then Some ([], s)
      else
        let task := _taskList s !!! 0 in
        if before now (executeTime task) then Some ([], s)
        else
          let s1 := remove_at 0 s in
          let task_count := _taskCount s1 in
          let s2 := invoke (func task) (param task) s1 in
          if task_count =? 0 then Some ([task], s2)
          else
            match update_loop fuel' now s2 with
            | Some (fired, s3) => Some (task :: fired, s3)
            | None => None
            end
  end.

(** ** Vocabulary of the properties *)

(** The state after the optional reuse removal. *)
Definition after_reuse (reuseId : Z) (s : Sched) : Sched :=
  if (reuseId =? 0)%Z then s else remove_id reuseId s.

(** The identifier handed out and the next value of the counter. *)
Definition assigned_id (reuseId : Z) (s : Sched) : Z :=
  if (reuseId =? 0)%Z then _id s else reuseId.

Definition next_id (reuseId : Z) (s : Sched) : Z :=
  if (reuseId =? 0)%Z then U32.add (_id s) 1 else _id s.

(** The live slots [[0, _taskCount)]. *)
Definition live (s : Sched) : list Task := take (_taskCount s) (_taskList s).

Definition wf (s : Sched) : Prop :=
  length (_taskList s) = MaxTaskCount ∧ _taskCount s ≤ MaxTaskCount.

(** Sortedness of the live slots, as the invariant is written: every
    adjacent pair has a non-negative signed difference. *)
Definition table_sorted (s : Sched) : Prop :=
  ∀ i, S i < _taskCount s →
    (0 ≤ U32.signed (U32.sub (executeTime (_taskList s !!! S i))
                              (executeTime (_taskList s !!! i))))%Z.

(** The same on a list of tasks. *)
Definition adjacent_sorted (l : list Task) : Prop :=
  ∀ i a b, l !! i = Some a → l !! S i = Some b →
    (0 ≤ U32.signed (U32.sub (executeTime b) (executeTime a)))%Z.

(** Order of two tasks by the offset of their execute times from a base
    tick. *)
Definition offset_le (base : Z) (a b : Task) : Prop :=
  (U32.offset base (executeTime a) ≤ U32.offset base (executeTime b))%Z.

(** All ticks of a list lie less than 2^31 ticks after the base tick
    [b]. *)
Definition in_window (b : Z) (ticks : list Z) : Prop :=
  Forall (λ x, (U32.offset b x < U32.half)%Z) ticks.

Definition times (s : Sched) : list Z := executeTime <$> live s.
Definition ids (s : Sched) : list Z := id <$> live s.

(** A task is due at [now] when the signed difference is not negative. *)
Definition due (now : Z) (t : Task) : Prop :=
  (0 ≤ U32.signed (U32.sub now (executeTime t)))%Z.

#[export] Instance due_dec now t : Decision (due now t).
Proof. unfold due. apply _. Defined.

(** Removal of the first task that carries [taskId], on the live list. *)
Fixpoint remove_first (taskId : Z) (l : list Task) : list Task :=
  match l with
  | [] => []
  | t :: l' => if (id t =? taskId)%Z then l' else t :: remove_first taskId l'
  end.

(** The longest prefix of due tasks, and what follows it. *)
Fixpoint due_prefix (now : Z) (l : list Task) : list Task :=
  match l with
  | [] => []
  | t :: l' => if before now (executeTime t) then [] else t :: due_prefix now l'
  end.

Fixpoint due_rest (now : Z) (l : list Task) : list Task :=
  match l with
  | [] => []
  | t :: l' => if before now (executeTime t) then l else due_rest now l'
  end.

End Scheduler.

Arguments Task : clear implicits.
Arguments Sched : clear implicits.

(** Handlers that leave the scheduler alone, like the mocks of the tests. *)
Definition idle {Func Param : Type}
  : option Func → option Param → Sched Func Param → Sched Func Param :=
  λ _ _ s, s.

(** [update()] for such handlers.  The loop body runs at most once per live
    task and once more to see the empty table. *)
Definition update {Func Param : Type} (now : Z) (s : Sched Func Param)
  : option (list (Task Func Param) * Sched Func Param) :=
  update_loop idle (S (_taskCount s)) now s.

(** States that calls of the public operations produce from a fresh
    scheduler, with handlers that leave the scheduler alone. *)
Inductive reachable {Func Param : Type} (N : nat) : Sched Func Param → Prop :=
  | reachable_init : reachable N (init N)
  | reachable_schedule now f p delay reuseId s :
      (0 ≤ now < U32.modulus)%Z → (0 ≤ delay < U32.modulus)%Z →
      (0 ≤ reuseId < U32.modulus)%Z →
      reachable N s →
      reachable N (scheduleTask N now f p delay reuseId s).2
  | reachable_unschedule taskId s :
      reachable N s → reachable N (unscheduleTask taskId s)
  | reachable_update now s fired s' :
      reachable N s → update now s = Some (fired, s') → reachable N s'.

(** ** The helper of the test suite *)

Module SchedulerHelper.
(** [MockCompletion::completion_callback] is the only handler. *)
Abbreviation Handler := unit.

(** A handler's context is the mock at this index of [completion]. *)
Abbreviation Mock := nat.

(** [completion] is the number of mocks created so far; [fired] lists
    the tasks whose mock saw [onComplete()], in call order. *)
Record t := mk {
  scheduler : Sched Handler Mock;
  completion : nat;
  fired : list (Task Handler Mock)
}.

(** [Scheduler<StrictMock<MockStaticCPU>, 10>]. *)
Definition maxTaskCount : nat := 10.

Definition create (N : nat) : t := mk (init N) 0 [].

(** [schedule(delay, id)]: push a new mock and schedule the callback with
    it as context.  The helper returns the identifier as an [int] (of
    32 bits). *)
Definition schedule (N : nat) (now delay reuseId : Z) (h : t) : Z * t :=
  let '(r, s) :=
    scheduleTask N now tt (Some (completion h)) delay reuseId (scheduler h) in
  (U32.signed r, mk s (S (completion h)) (fired h)).

Definition update (now : Z) (h : t) : t :=
  match update now (scheduler h) with
  | Some (tasks, s) => mk s (completion h) (fired h ++ tasks)
  | None => h
  end.

(** The mocks that fired, by index. *)
Definition fired_mocks (h : t) : list Mock := omap param (fired h).

Inductive Op :=
  | OpSchedule (now delay reuseId : Z)
  | OpUnschedule (taskId : Z)
  | OpUpdate (now : Z).

Definition step (N : nat) (h : t) (o : Op) : t :=
  match o with
  | OpSchedule now delay reuseId => (schedule N now delay reuseId h).2
  | OpUnschedule taskId =>
      mk (unscheduleTask taskId (scheduler h)) (completion h) (fired h)
  | OpUpdate now => update now h
  end.

Definition run (N : nat) (ops : list Op) : t := foldl (step N) (create N) ops.

(** Among tasks with the same execute time, [a] was scheduled first. *)
Definition fifo (a b : Task Handler Mock) : Prop :=
  executeTime a = executeTime b →
  ∃ ka kb, param a = Some ka ∧ param b = Some kb ∧ ka < kb.

(** What every state of a run has: the tasks called so far followed by
    the live tasks are in schedule order wherever deadlines are equal,
    and each carries a mock that exists. *)
Definition helper_inv (N : nat) (h : t) : Prop :=
  wf N (scheduler h) ∧
  StronglySorted fifo (fired h ++ live (scheduler h)) ∧
  Forall (λ t, ∃ k, param t = Some k ∧ k < completion h)
         (fired h ++ live (scheduler h)).
End SchedulerHelper.

(** ** States used as examples *)

Module Scenarios.
(** The scheduler type of the tests, [Scheduler<MockStaticCPU, 10>], with
    the one handler of the tests and mock indices as contexts. *)
Abbreviation TestScheduler := (Sched unit nat).

(** Two tasks scheduled at tick 0 with delays 10 and 20
    (ScheduleMultiForDelayedCallSerialCompletion). *)
Definition two_tasks : TestScheduler :=
  (scheduleTask 10 0 tt (Some 1) 20 0
     (scheduleTask 10 0 tt (Some 0) 10 0 (init 10)).2).2.

(** The table filled with ten tasks scheduled at tick 0 with delay 20
    (ScheduleForDelayedCompletionOverflowTasks). *)
Definition full_table : TestScheduler :=
  Nat.iter 10 (λ s, (scheduleTask 10 0 tt None 20 0 s).2) (init 10).

(** Two tasks scheduled at tick 0, one with delay 0 and one with the
    longest delay below 2^31. *)
Definition overdue_head : TestScheduler :=
  (scheduleTask 10 0 tt (Some 1) 2147483647 0
     (scheduleTask 10 0 tt (Some 0) 0 0 (init 10)).2).2.


(** One task scheduled on a fresh scheduler with [reuseId = 1]. *)
Definition claimed_id : TestScheduler :=
  (scheduleTask 10 0 tt (Some 0) 10 1 (init 10)).2.

(** [claimed_id] followed by a schedule that asks for a fresh
    identifier: the counter is still 1. *)
Definition same_id_twice : TestScheduler :=
  (scheduleTask 10 0 tt (Some 1) 20 0 claimed_id).2.

(** Two tasks scheduled at tick 0 with delay 0. *)
Definition two_due : TestScheduler :=
  (scheduleTask 10 0 tt (Some 1) 0 0
     (scheduleTask 10 0 tt (Some 0) 0 0 (init 10)).2).2.

(** A handler that schedules its task again with delay 0, the tick read
    by [scheduleTask] still being 0. *)
Definition rearm (f : option unit) (p : option nat) (s : TestScheduler)
  : TestScheduler :=
  match f with
  | Some h => (scheduleTask 10 0 h p 0 0 s).2
  | None => s
  end.
End Scenarios.

(** ** The calls into the CPU facade *)

Section Facade.
Context {Func Param : Type}.

(** A call that leaves the scheduler: one of the four operations of
    [CPUConcept], or a completion handler with its context. *)
Inductive Event :=
  | GetSystemTick
  | EnterCriticalSection
  | LeaveCriticalSection
  | Sleep
  | Invoke (f : option Func) (p : option Param).

(** A result together with the calls made to produce it, in order. *)
Definition Traced (A : Type) : Type := list Event * A.

Definition ret {A : Type} (a : A) : Traced A := ([], a).

(** Make the call [e], then continue with [m]. *)
Definition emit {A : Type} (e : Event) (m : Traced A) : Traced A :=
  (e :: m.1, m.2).

(** Run [m], then continue with [k]. *)
Definition bind {A B : Type} (m : Traced A) (k : A → Traced B) : Traced B :=
  (m.1 ++ (k m.2).1, (k m.2).2).

Variable MaxTaskCount : nat.

(** [scheduleTask] with its calls; [now] is what [CPU::getSystemTick()]
    returned. *)
Definition scheduleTask_cpu (now : Z) (f : Func) (p : option Param)
    (delay reuseId : Z) (s : Sched Func Param) : Traced (Z * Sched Func Param) :=
  emit GetSystemTick (
    let target_time := U32.add now delay in
    emit EnterCriticalSection (
      let s1 := if (reuseId =? 0)%Z then s else remove_id reuseId s in
      if MaxTaskCount <=? _taskCount s1
      then emit LeaveCriticalSection (ret (0%Z, s1))
      else
        let '(slot, l) :=
          insert_shift (_taskCount s1) target_time (_taskList s1) in
        let '(tid, next) :=
          if (reuseId =? 0)%Z then (_id s1, U32.add (_id s1) 1)
          else (reuseId, _id s1) in
        emit LeaveCriticalSection (
          ret (tid,
               mkSched (<[slot := mkTask target_time (Some f) p tid]> l)
                       (S (_taskCount s1))
                       next)))).

(** [unscheduleTask] with its calls. *)
Definition unscheduleTask_cpu (taskId : Z) (s : Sched Func Param)
  : Traced (Sched Func Param) :=
  emit EnterCriticalSection (
    let s1 :=
      match find_id (_taskCount s) 0 taskId (_taskList s) with
      | Some i => remove_at i s
      | None => s
      end in
    emit LeaveCriticalSection (ret s1)).

(** What running [task.func(task.param)] does: the calls it makes and the
    scheduler it leaves. *)
Variable handler : option Func → option Param → Sched Func Param →
                   Traced (Sched Func Param).

(** The [while (true)] loop of [update] with its calls. *)
Fixpoint update_loop_cpu (fuel : nat) (now : Z) (s : Sched Func Param)
  : option (Traced (list (Task Func Param) * Sched Func Param)) :=
  match fuel with
  | O => None
  | S fuel' =>
      if _taskCount s =? 0
      then Some (emit EnterCriticalSection
                   (emit LeaveCriticalSection (ret ([], s))))
      else
        let task := _taskList s !!! 0 in
        if before now (executeTime task)
        then Some (emit EnterCriticalSection
                     (emit LeaveCriticalSection (ret ([], s))))
        else
          let s1 := remove_at 0 s in
          let task_count := _taskCount s1 in
          let called :=
            emit EnterCriticalSection
              (emit LeaveCriticalSection
                 (emit (Invoke (func task) (param task))
                    (handler (func task) (param task) s1))) in
          if task_count =? 0 then Some (bind called (λ s2, ret ([task], s2)))
          else
            match update_loop_cpu fuel' now called.2 with
            | Some rest =>
                Some (bind called
                        (λ _, (rest.1, (task :: rest.2.1, rest.2.2))))
            | None => None
            end
  end.

(** [update] with its calls: the tick is sampled once, before the loop. *)
Definition update_cpu (fuel : nat) (now : Z) (s : Sched Func Param)
  : option (Traced (list (Task Func Param) * Sched Func Param)) :=
  match update_loop_cpu fuel now s with
  | Some m => Some (emit GetSystemTick m)
  | None => None
  end.

(** The discipline of critical sections on a sequence of calls: a section
    is entered only outside a section and left only inside one, the tick
    is read and handlers are called only outside, and no section is open
    at the end.  [inside] tells whether a section is open at the start. *)
Fixpoint well_bracketed (inside : bool) (calls : list Event) : bool :=
  match calls with
  | [] => negb inside
  | EnterCriticalSection :: r => negb inside && well_bracketed true r
  | LeaveCriticalSection :: r => inside && well_bracketed false r
  | GetSystemTick :: r => negb inside && well_bracketed false r
  | Sleep :: r => negb inside && well_bracketed false r
  | Invoke _ _ :: r => negb inside && well_bracketed false r
  end.

(** The calls around one dispatched task. *)
Definition dispatch_calls (t : Task Func Param) : list Event :=
  [EnterCriticalSection; LeaveCriticalSection; Invoke (func t) (param t)].

(** The calls of the last iteration of the loop of [update] on the live
    tasks [l]: none when the loop returns right after the handler of the
    last live task, one empty critical section otherwise. *)
Definition final_calls (now : Z) (l : list (Task Func Param)) : list Event :=
  match l, due_rest now l with
  | _ :: _, [] => []
  | _, _ => [EnterCriticalSection; LeaveCriticalSection]
  end.

(** The loop [for (...) scheduler.schedule(...)] of the tests: one fresh
    [scheduleTask] per request (tick, handler, context, delay); the
    result lists the returned identifiers. *)
Fixpoint schedule_all (reqs : list (Z * Func * option Param * Z))
    (s : Sched Func Param) : list Z * Sched Func Param :=
  match reqs with
  | [] => ([], s)
  | (now, f, p, delay) :: reqs' =>
      let r := scheduleTask MaxTaskCount now f p delay 0 s in
      let rs := schedule_all reqs' r.2 in
      (r.1 :: rs.1, rs.2)
  end.
End Facade.

Arguments Event : clear implicits.

(** A handler that makes no call, like [MockCompletion::onComplete]. *)
Definition idle_cpu {Func Param : Type}
  : option Func → option Param → Sched Func Param →
    Traced (Func:=Func) (Param:=Param) (Sched Func Param) :=
  λ _ _ s, ret s.

(** * Properties *)

(** ** Tick arithmetic *)

Section Arithmetic.
Local Open Scope Z_scope.

Lemma wrap_range x : 0 ≤ U32.wrap x < U32.modulus.
Proof. unfold U32.wrap, U32.modulus. apply Z.mod_pos_bound. lia. Qed.

Lemma wrap_small x : 0 ≤ x < U32.modulus → U32.wrap x = x.
Proof. unfold U32.wrap. apply Z.mod_small. Qed.

Lemma signed_sub_self x : U32.signed (U32.sub x x) = 0.
Proof. unfold U32.sub. by rewrite Z.sub_diag. Qed.

(** Inside a window of 2^31 ticks the signed difference of two ticks is
    the difference of their offsets: the comparison is a linear order. *)
Lemma signed_sub_window b x y :
  U32.offset b x < U32.half → U32.offset b y < U32.half →
  U32.signed (U32.sub y x) = U32.offset b y - U32.offset b x.
Proof.
  unfold U32.signed, U32.sub, U32.offset, U32.wrap, U32.half, U32.modulus.
  intros Hx Hy.
  change (2 ^ 32) with 4294967296 in *.
  change (2 ^ 31) with 2147483648 in *.
  destruct (Z.ltb_spec (((y - x) mod 4294967296) mod 4294967296) 2147483648);
    Z.div_mod_to_equations; lia.
Qed.

Lemma before_irrefl x : before x x = false.
Proof. unfold before. by rewrite signed_sub_self. Qed.

Lemma before_window b x y :
  U32.offset b x < U32.half → U32.offset b y < U32.half →
  before x y = true ↔ U32.offset b x < U32.offset b y.
Proof.
  intros Hx Hy. unfold before.
  rewrite (signed_sub_window b y x Hy Hx), Z.ltb_lt. lia.
Qed.
End Arithmetic.

(** ** The loops over the array, read slot by slot *)

Section Loops.
Context {Func Param : Type}.
Implicit Types (l : list (Task Func Param)) (s : Sched Func Param).
Implicit Types (t : Task Func Param).

Lemma shift_left_length n j l : length (shift_left n j l) = length l.
Proof.
  revert j l. induction n as [|n IH]; intros j l; simpl; [done|].
  by rewrite IH, length_insert.
Qed.

Lemma shift_left_lookup n j l k :
  j + n < length l →
  shift_left n j l !! k =
    if decide (j ≤ k < j + n) then l !! S k else l !! k.
Proof.
  revert j l. induction n as [|n IH]; intros j l Hlen; simpl.
  { case_decide; [lia|done]. }
  rewrite IH by (rewrite length_insert; lia).
  destruct (decide (k = j)) as [->|Hkj].
  - rewrite list_lookup_insert_eq by lia.
    repeat case_decide; try lia.
    symmetry. apply list_lookup_lookup_total_lt. lia.
  - repeat case_decide; try lia; by rewrite list_lookup_insert_ne by lia.
Qed.

Lemma live_remove_at i s :
  _taskCount s ≤ length (_taskList s) → i < _taskCount s →
  live (remove_at i s) = delete i (live s).
Proof.
  intros Hlen Hi. unfold live, remove_at; simpl.
  apply list_eq; intros k.
  rewrite list_lookup_delete, !lookup_take.
  destruct (decide (k < _taskCount s - 1)) as [Hk|Hk].
  - rewrite shift_left_lookup by lia.
    repeat case_decide; try lia; done.
  - repeat case_decide; try lia; done.
Qed.

Lemma find_id_first n i taskId l :
  i + n ≤ length l →
  find_id n i taskId l =
    (λ x, i + x.1) <$> list_find (λ t, id t = taskId) (take n (drop i l)).
Proof.
  revert i. induction n as [|n IH]; intros i Hlen; simpl; [done|].
  destruct (drop i l) as [|t r] eqn:Hdrop.
  { apply (f_equal length) in Hdrop. rewrite length_drop in Hdrop.
    simpl in Hdrop. lia. }
  assert (l !!! i = t) as Ht.
  { apply list_lookup_total_correct.
    rewrite <-(Nat.add_0_r i), <-lookup_drop, Hdrop. done. }
  assert (drop (S i) l = r) as Hr.
  { by rewrite <-(Nat.add_1_r i), <-drop_drop, Hdrop. }
  rewrite Ht. simpl.
  destruct (Z.eqb_spec (id t) taskId) as [Heq|Hne].
  - rewrite decide_True by done. simpl. f_equal. lia.
  - rewrite decide_False by done.
    rewrite IH by lia. rewrite Hr.
    destruct (list_find _ (take n r)) as [[k x]|]; simpl; [|done].
    f_equal. lia.
Qed.
End Loops.

(** ** The operations on the live slots *)

Section Table.
Context {Func Param : Type}.
Implicit Types (l : list (Task Func Param)) (s : Sched Func Param).
Implicit Types (t : Task Func Param).

Lemma remove_first_find taskId l :
  remove_first taskId l =
    match list_find (λ t, id t = taskId) l with
    | Some (k, _) => delete k l
    | None => l
    end.
Proof.
  induction l as [|t l IH]; simpl; [done|].
  destruct (Z.eqb_spec (id t) taskId) as [Heq|Hne].
  - by rewrite decide_True.
  - rewrite decide_False by done. rewrite IH.
    by destruct (list_find _ l) as [[k x]|].
Qed.

Lemma live_length s :
  _taskCount s ≤ length (_taskList s) → length (live s) = _taskCount s.
Proof. intros. unfold live. rewrite length_take. lia. Qed.

Lemma live_lookup s i :
  i < _taskCount s → _taskCount s ≤ length (_taskList s) →
  live s !! i = Some (_taskList s !!! i).
Proof.
  intros Hi Hlen. unfold live. rewrite lookup_take_lt by done.
  apply list_lookup_lookup_total_lt. lia.
Qed.

(** The search-and-remove loop removes the first live task with the
    identifier, and nothing when there is none. *)
Lemma live_remove_id taskId s :
  _taskCount s ≤ length (_taskList s) →
  live (remove_id taskId s) = remove_first taskId (live s).
Proof.
  intros Hlen. unfold remove_id.
  rewrite find_id_first by lia. rewrite drop_0.
  rewrite remove_first_find. fold (live s).
  destruct (list_find _ (live s)) as [[k x]|] eqn:Hfind; simpl; [|done].
  apply list_find_Some in Hfind as (Hk & _ & _).
  apply lookup_lt_Some in Hk. rewrite live_length in Hk by done.
  by apply live_remove_at.
Qed.

Lemma remove_id_count taskId s :
  _taskCount s ≤ length (_taskList s) →
  _taskCount (remove_id taskId s) = length (remove_first taskId (live s)).
Proof.
  intros Hlen. rewrite <-live_remove_id by done.
  unfold remove_id.
  destruct (find_id _ _ _ _) eqn:Hfind.
  - unfold live, remove_at; simpl. rewrite length_take, shift_left_length. lia.
  - by rewrite live_length.
Qed.

Lemma remove_id_id taskId s : _id (remove_id taskId s) = _id s.
Proof. unfold remove_id. by destruct (find_id _ _ _ _). Qed.

Lemma remove_id_length taskId s :
  length (_taskList (remove_id taskId s)) = length (_taskList s).
Proof.
  unfold remove_id. destruct (find_id _ _ _ _); [|done].
  apply shift_left_length.
Qed.

Lemma remove_id_count_le taskId s :
  _taskCount (remove_id taskId s) ≤ _taskCount s.
Proof. unfold remove_id. destruct (find_id _ _ _ _); simpl; lia. Qed.

Lemma remove_id_wf N taskId s : wf N s → wf N (remove_id taskId s).
Proof.
  intros [Hlen Hcount]. split.
  - by rewrite remove_id_length.
  - pose proof (remove_id_count_le taskId s). lia.
Qed.

Lemma remove_first_absent taskId l :
  taskId ∉ id <$> l → remove_first taskId l = l.
Proof.
  induction l as [|t l IH]; simpl; [done|]. intros Hnot.
  apply not_elem_of_cons in Hnot as [Hne Hnot].
  destruct (Z.eqb_spec (id t) taskId); [congruence|].
  by rewrite IH.
Qed.

Lemma remove_first_sublist taskId l : remove_first taskId l `sublist_of` l.
Proof.
  induction l as [|t l IH]; simpl; [done|].
  destruct (id t =? taskId)%Z.
  - by apply sublist_cons.
  - by apply sublist_skip.
Qed.

(** An identifier that no live task carries is not found. *)
Lemma find_id_absent taskId s :
  _taskCount s ≤ length (_taskList s) →
  taskId ∉ ids s → find_id (_taskCount s) 0 taskId (_taskList s) = None.
Proof.
  intros Hlen Hnot. rewrite find_id_first by lia. rewrite drop_0.
  fold (live s).
  destruct (list_find _ (live s)) as [[k x]|] eqn:Hfind; [|done].
  apply list_find_Some in Hfind as (Hk & Hid & _).
  exfalso. apply Hnot. unfold ids. apply list_elem_of_fmap.
  exists x. split; [done|]. by eapply list_elem_of_lookup_2.
Qed.
End Table.

(** ** Insertion *)

Section Insertion.
Context {Func Param : Type}.
Implicit Types (l : list (Task Func Param)) (s : Sched Func Param).
Implicit Types (t : Task Func Param).

(** The insertion loop moves slots [(p, j]] one place up and stops at
    [p]: every task it moved is strictly after the target, the task
    below [p], if any, is not. *)
Lemma insert_shift_spec j target l p l' :
  j < length l → insert_shift j target l = (p, l') →
  p ≤ j ∧ length l' = length l ∧
  (∀ k, l' !! k = if decide (p < k ≤ j) then l !! (k - 1) else l !! k) ∧
  (∀ k t, p ≤ k < j → l !! k = Some t →
          before target (executeTime t) = true) ∧
  (∀ i t, p = S i → l !! i = Some t →
          before target (executeTime t) = false).
Proof.
  revert l. induction j as [|i IH]; intros l Hlen Hins; simpl in Hins.
  { injection Hins as <- <-. split_and!; try done.
    - intros k. case_decide; [lia|done].
    - intros; lia. }
  destruct (before target (executeTime (l !!! i))) eqn:Hcmp.
  - apply IH in Hins as (Hp & Hl' & Hlook & Hmoved & Hbelow);
      [|rewrite length_insert; lia].
    rewrite length_insert in Hl'.
    split_and!; [lia|done|..].
    + intros k. rewrite Hlook.
      destruct (decide (k = S i)) as [->|Hk].
      * rewrite decide_False by lia. rewrite decide_True by lia.
        rewrite list_lookup_insert_eq by lia. simpl. rewrite Nat.sub_0_r.
        symmetry. apply list_lookup_lookup_total_lt. lia.
      * repeat case_decide; try lia;
          by rewrite list_lookup_insert_ne by lia.
    + intros k t Hk Ht.
      destruct (decide (k = i)) as [->|Hki].
      * apply list_lookup_total_correct in Ht. by rewrite <-Ht.
      * apply (Hmoved k); [lia|]. by rewrite list_lookup_insert_ne by lia.
    + intros i' t -> Ht. apply (Hbelow i'); [done|].
      by rewrite list_lookup_insert_ne by lia.
  - injection Hins as <- <-. split_and!; try done.
    + intros k. case_decide; [lia|done].
    + intros; lia.
    + intros i' t [= <-] Ht.
      apply list_lookup_total_correct in Ht. by rewrite <-Ht.
Qed.

Lemma after_reuse_wf N reuseId s : wf N s → wf N (after_reuse reuseId s).
Proof.
  unfold after_reuse. destruct (reuseId =? 0)%Z; [done|]. apply remove_id_wf.
Qed.

Lemma after_reuse_id reuseId s : _id (after_reuse reuseId s) = _id s.
Proof.
  unfold after_reuse. destruct (reuseId =? 0)%Z; [done|]. apply remove_id_id.
Qed.

Lemma after_reuse_live N reuseId s :
  wf N s →
  live (after_reuse reuseId s) =
    if (reuseId =? 0)%Z then live s else remove_first reuseId (live s).
Proof.
  intros [Hlen Hcount]. unfold after_reuse.
  destruct (reuseId =? 0)%Z; [done|]. apply live_remove_id. lia.
Qed.

(** A full table: the call returns 0 and only the reuse removal has
    happened. *)
Lemma scheduleTask_full N now f p delay reuseId s :
  N ≤ _taskCount (after_reuse reuseId s) →
  scheduleTask N now f p delay reuseId s = (0%Z, after_reuse reuseId s).
Proof.
  intros Hfull. unfold scheduleTask. fold (after_reuse reuseId s).
  by rewrite (proj2 (Nat.leb_le _ _) Hfull).
Qed.

(** A free slot: the new task is placed at some slot [p] of the live
    table, after every task that is not strictly after the target and
    before the tasks that are. *)
Lemma scheduleTask_free_at N now f p delay reuseId s :
  wf N s →
  _taskCount (after_reuse reuseId s) < N →
  let slot := (insert_shift (_taskCount (after_reuse reuseId s))
                            (U32.add now delay)
                            (_taskList (after_reuse reuseId s))).1 in
  ∃ s',
    scheduleTask N now f p delay reuseId s = (assigned_id reuseId s, s') ∧
    wf N s' ∧
    _taskCount s' = S (_taskCount (after_reuse reuseId s)) ∧
    _id s' = next_id reuseId s ∧
    slot ≤ _taskCount (after_reuse reuseId s) ∧
    live s' =
      take slot (live (after_reuse reuseId s)) ++
      mkTask (U32.add now delay) (Some f) p (assigned_id reuseId s) ::
      drop slot (live (after_reuse reuseId s)) ∧
    Forall (λ t, before (U32.add now delay) (executeTime t) = true)
           (drop slot (live (after_reuse reuseId s))) ∧
    Forall (λ t, before (U32.add now delay) (executeTime t) = false)
           (drop (slot - 1) (take slot (live (after_reuse reuseId s)))).
Proof.
  intros Hwf Hfree.
  pose proof (after_reuse_wf N reuseId s Hwf) as [Hlen1 Hcount1].
  pose proof (after_reuse_id reuseId s) as Hid1.
  unfold scheduleTask. fold (after_reuse reuseId s).
  unfold assigned_id, next_id. rewrite <-Hid1.
  set (s1 := after_reuse reuseId s) in *.
  rewrite (proj2 (Nat.leb_gt _ _) Hfree).
  destruct (insert_shift _ _ _) as [slot l'] eqn:Hins. simpl.
  apply insert_shift_spec in Hins as (Hp & Hl' & Hlook & Hmoved & Hbelow);
    [|lia].
  exists (mkSched
            (<[slot := mkTask (U32.add now delay) (Some f) p
                              (if (reuseId =? 0)%Z then _id s1 else reuseId)]> l')
            (S (_taskCount s1))
            (if (reuseId =? 0)%Z then U32.add (_id s1) 1 else _id s1)).
  split.
  { destruct (reuseId =? 0)%Z; reflexivity. }
  assert (length (live s1) = _taskCount s1) as Hlive
    by (apply live_length; lia).
  split_and!; simpl.
  - split; simpl; [by rewrite length_insert; lia|lia].
  - done.
  - done.
  - done.
  - unfold live at 1; simpl. apply list_eq; intros k.
    rewrite lookup_take.
    destruct (decide (k < slot)) as [Hk|Hk].
    + rewrite lookup_app_l by (rewrite length_take; lia).
      rewrite decide_True by lia.
      rewrite list_lookup_insert_ne by lia. rewrite Hlook.
      rewrite decide_False by lia.
      rewrite lookup_take_lt by done. unfold live.
      by rewrite lookup_take_lt by lia.
    + rewrite lookup_app_r by (rewrite length_take; lia).
      rewrite length_take, Hlive.
      replace (slot `min` _taskCount s1) with slot by lia.
      destruct (decide (k = slot)) as [->|Hks].
      * rewrite decide_True by lia. rewrite Nat.sub_diag. simpl.
        rewrite list_lookup_insert_eq by lia. done.
      * destruct (k - slot) as [|d] eqn:Hd; [lia|]. simpl.
        rewrite lookup_drop. unfold live. rewrite lookup_take.
        case_decide.
        -- rewrite list_lookup_insert_ne by lia. rewrite Hlook.
           rewrite decide_True by lia. rewrite decide_True by lia.
           f_equal. lia.
        -- by rewrite decide_False by lia.
  - apply Forall_forall. intros t Ht.
    apply list_elem_of_lookup in Ht as [k Ht].
    rewrite lookup_drop in Ht. unfold live in Ht.
    apply lookup_take_Some in Ht as [Ht Hk].
    apply (Hmoved (slot + k)); [lia|done].
  - apply Forall_forall. intros t Ht.
    apply list_elem_of_lookup in Ht as [k Ht].
    rewrite lookup_drop in Ht.
    apply lookup_take_Some in Ht as [Ht Hk].
    unfold live in Ht. apply lookup_take_Some in Ht as [Ht Hk'].
    destruct slot as [|i]; [lia|].
    apply (Hbelow i); [done|].
    replace (S i - 1 + k) with i in Ht by lia. done.
Qed.
Lemma scheduleTask_free N now f p delay reuseId s :
  wf N s →
  _taskCount (after_reuse reuseId s) < N →
  ∃ slot s',
    scheduleTask N now f p delay reuseId s = (assigned_id reuseId s, s') ∧
    wf N s' ∧
    _taskCount s' = S (_taskCount (after_reuse reuseId s)) ∧
    _id s' = next_id reuseId s ∧
    slot ≤ _taskCount (after_reuse reuseId s) ∧
    live s' =
      take slot (live (after_reuse reuseId s)) ++
      mkTask (U32.add now delay) (Some f) p (assigned_id reuseId s) ::
      drop slot (live (after_reuse reuseId s)) ∧
    Forall (λ t, before (U32.add now delay) (executeTime t) = true)
           (drop slot (live (after_reuse reuseId s))) ∧
    Forall (λ t, before (U32.add now delay) (executeTime t) = false)
           (drop (slot - 1) (take slot (live (after_reuse reuseId s)))).
Proof.
  intros Hwf Hfree. eexists. by apply scheduleTask_free_at.
Qed.
End Insertion.

(** ** Order of the table *)

Section Ordering.
Context {Func Param : Type}.
Implicit Types (l : list (Task Func Param)) (s : Sched Func Param).
Implicit Types (t : Task Func Param).

Lemma table_sorted_live s :
  _taskCount s ≤ length (_taskList s) →
  table_sorted s ↔ adjacent_sorted (live s).
Proof.
  intros Hlen. split.
  - intros Hs i a b Ha Hb.
    assert (S i < _taskCount s) as Hi.
    { apply lookup_lt_Some in Hb. by rewrite live_length in Hb. }
    rewrite live_lookup in Ha, Hb by lia.
    injection Ha as <-. injection Hb as <-. by apply Hs.
  - intros Hs i Hi. apply (Hs i); by apply live_lookup; lia.
Qed.

Lemma adjacent_sorted_tail t l : adjacent_sorted (t :: l) → adjacent_sorted l.
Proof. intros Hs i a b Ha Hb. by apply (Hs (S i)). Qed.

#[local] Instance offset_le_trans base :
  Transitive (offset_le (Func:=Func) (Param:=Param) base).
Proof. intros a b c. unfold offset_le. lia. Qed.

(** Within a window the adjacent comparison of the source is an ordinary
    sorted list. *)
Lemma adjacent_sorted_window base l :
  in_window base (executeTime <$> l) →
  adjacent_sorted l ↔ StronglySorted (offset_le base) l.
Proof.
  intros Hwin. split.
  - intros Hs. apply Sorted_StronglySorted; [apply _|].
    induction l as [|a l IH]; [constructor|].
    apply Forall_cons in Hwin as [Ha Hwin].
    constructor; [apply IH; [done|by eapply adjacent_sorted_tail]|].
    destruct l as [|b l]; constructor.
    apply Forall_cons in Hwin as [Hb _].
    unfold offset_le.
    pose proof (Hs 0 a b eq_refl eq_refl) as Hab.
    rewrite (signed_sub_window base) in Hab by done. lia.
  - intros Hs i a b Ha Hb.
    rewrite <-(take_drop (S i) l) in Hs.
    assert (a ∈ take (S i) l) as Hina.
    { apply list_elem_of_lookup. exists i. by rewrite lookup_take_lt by lia. }
    assert (b ∈ drop (S i) l) as Hinb.
    { apply list_elem_of_lookup. exists 0. by rewrite lookup_drop, Nat.add_0_r. }
    pose proof (StronglySorted_app_1_elem_of _ _ _ _ _ Hs Hina Hinb) as Hab.
    unfold in_window in Hwin. rewrite Forall_fmap, Forall_forall in Hwin.
    rewrite (signed_sub_window base).
    + unfold offset_le in Hab. lia.
    + apply (Hwin a). by eapply list_elem_of_lookup_2.
    + apply (Hwin b). by eapply list_elem_of_lookup_2.
Qed.

Lemma StronglySorted_sublist {A} (R : relation A) (l1 l2 : list A) :
  l1 `sublist_of` l2 → StronglySorted R l2 → StronglySorted R l1.
Proof.
  induction 1 as [|x l1 l2 Hsub IH|x l1 l2 Hsub IH]; intros Hs.
  - done.
  - apply StronglySorted_cons in Hs as [Hall Hs].
    apply StronglySorted_cons. split; [|by apply IH].
    rewrite Forall_forall in Hall |- *. intros y Hy.
    apply Hall. by eapply elem_of_sublist.
  - apply StronglySorted_cons in Hs as [_ Hs]. by apply IH.
Qed.



End Ordering.

(** ** The drain loop *)

Section Drain.
Context {Func Param : Type}.
Implicit Types (l : list (Task Func Param)) (s : Sched Func Param).
Implicit Types (t : Task Func Param).

Lemma filter_all {A} (P : A → Prop) `{∀ x, Decision (P x)} (k : list A) :
  Forall P k → filter P k = k.
Proof.
  induction 1 as [|x k Hx Hk IH]; [done|].
  by rewrite filter_cons_True, IH.
Qed.

Lemma filter_none {A} (P : A → Prop) `{∀ x, Decision (P x)} (k : list A) :
  Forall (λ x, ¬ P x) k → filter P k = [].
Proof.
  induction 1 as [|x k Hx Hk IH]; [done|].
  by rewrite filter_cons_False.
Qed.

Lemma before_due now t : before now (executeTime t) = false ↔ due now t.
Proof. unfold before, due. rewrite Z.ltb_ge. done. Qed.

Lemma live_head s :
  _taskCount s ≤ length (_taskList s) → _taskCount s ≠ 0 →
  live s = _taskList s !!! 0 :: live (remove_at 0 s).
Proof.
  intros Hlen Hcount. rewrite live_remove_at by lia.
  pose proof (live_lookup s 0 ltac:(lia) Hlen) as Hhead.
  destruct (live s) as [|t l]; [done|].
  injection Hhead as ->. done.
Qed.

Lemma remove_at_wf N i s : wf N s → wf N (remove_at i s).
Proof.
  intros [Hlen Hcount]. split; simpl; [by rewrite shift_left_length|lia].
Qed.

(** Handlers that leave the scheduler alone: the loop removes the
    longest prefix of due tasks, calls them in table order and returns;
    [fuel] beyond the number of live tasks is enough. *)
Lemma update_loop_idle N fuel now s :
  wf N s → _taskCount s < fuel →
  ∃ s', update_loop idle fuel now s = Some (due_prefix now (live s), s') ∧
        wf N s' ∧ live s' = due_rest now (live s) ∧ _id s' = _id s.
Proof.
  revert s. induction fuel as [|fuel IH]; intros s Hwf Hfuel; [lia|].
  simpl. destruct (Nat.eqb_spec (_taskCount s) 0) as [Hzero|Hpos].
  { exists s. unfold live. rewrite Hzero. by rewrite take_0. }
  destruct Hwf as [Hlen Hcount].
  rewrite (live_head s) by lia. simpl.
  destruct (before now (executeTime (_taskList s !!! 0))) eqn:Hcmp.
  { exists s. rewrite <-live_head by lia. done. }
  unfold idle at 1 3.
  destruct (IH (remove_at 0 s)) as (s' & Hrun & Hwf' & Hlive & Hid);
    [by apply remove_at_wf|simpl; lia|].
  destruct (Nat.eqb_spec (_taskCount s - 1) 0) as [Hlast|Hmore].
  - exists (remove_at 0 s). split_and!; try done.
    + assert (live (remove_at 0 s) = []) as ->; [|done].
      unfold live; simpl. rewrite Hlast. by rewrite take_0.
    + by apply remove_at_wf.
    + assert (live (remove_at 0 s) = []) as ->; [|done].
      unfold live; simpl. rewrite Hlast. by rewrite take_0.
  - exists s'. rewrite Hrun. done.
Qed.

(** [update] returns for such handlers. *)
Lemma update_idle N now s :
  wf N s →
  ∃ s', update now s = Some (due_prefix now (live s), s') ∧
        wf N s' ∧ live s' = due_rest now (live s) ∧ _id s' = _id s.
Proof. intros Hwf. apply (update_loop_idle N); [done|lia]. Qed.

Lemma due_prefix_rest now l : due_prefix now l ++ due_rest now l = l.
Proof.
  induction l as [|t l IH]; simpl; [done|].
  destruct (before now (executeTime t)); simpl; by rewrite ?IH.
Qed.

Lemma due_prefix_due now l : Forall (due now) (due_prefix now l).
Proof.
  induction l as [|t l IH]; simpl; [done|].
  destruct (before now (executeTime t)) eqn:Hcmp; [done|].
  constructor; [by apply before_due|done].
Qed.

(** In a sorted table whose execute times share a window with [now],
    the due tasks are a prefix. *)
Lemma due_prefix_filter base now l :
  in_window base (now :: (executeTime <$> l)) →
  adjacent_sorted l →
  due_prefix now l = filter (due now) l ∧
  due_rest now l = filter (λ t, ¬ due now t) l.
Proof.
  intros Hwin Hs. apply Forall_cons in Hwin as [Hnow Hwin].
  apply (adjacent_sorted_window base) in Hs; [|done].
  unfold in_window in Hwin. rewrite Forall_fmap in Hwin.
  induction Hs as [|a l Hs IH Hall]; [done|].
  apply Forall_cons in Hwin as [Ha Hwin]. simpl in Ha.
  simpl. destruct (before now (executeTime a)) eqn:Hcmp.
  - assert (Forall (λ t, ¬ due now t) (a :: l)) as Hnone.
    { apply (before_window base) in Hcmp; [|done..].
      constructor.
      - intros Hdue%before_due.
        apply not_true_iff_false in Hdue. apply Hdue.
        by apply (before_window base).
      - rewrite Forall_forall in Hall, Hwin |- *. intros t Ht.
        intros Hdue%before_due.
        apply not_true_iff_false in Hdue. apply Hdue.
        apply (before_window base); [done|by apply Hwin|].
        specialize (Hall t Ht). unfold offset_le in Hall. lia. }
    split.
    + symmetry. apply filter_none. done.
    + symmetry. apply filter_all. done.
  - apply before_due in Hcmp.
    destruct (IH Hwin) as [IH1 IH2].
    rewrite filter_cons_True by done.
    rewrite filter_cons_False by (intros Hn; by apply Hn).
    by rewrite IH1, IH2.
Qed.

(** Whatever the handlers do, a handler is only called for a task that
    was due at the sampled tick. *)
Lemma update_loop_fired_due invoke fuel now s fired s' :
  update_loop invoke fuel now s = Some (fired, s') → Forall (due now) fired.
Proof.
  revert s fired s'. induction fuel as [|fuel IH]; intros s fired s'; [done|].
  simpl. destruct (_taskCount s =? 0); [by intros [= <- <-]|].
  destruct (before now _) eqn:Hcmp; [by intros [= <- <-]|].
  apply before_due in Hcmp.
  destruct (_taskCount s - 1 =? 0).
  { intros [= <- <-]. by constructor. }
  destruct (update_loop _ _ _ _) as [[fired' s3]|] eqn:Hrun; [|done].
  intros [= <- <-]. constructor; [done|]. by eapply IH.
Qed.

(** A property of the state that the removal of the head and the
    handlers preserve holds when the loop returns. *)
Lemma update_loop_invariant (P : Sched Func Param → Prop)
    invoke fuel now s fired s' :
  (∀ s0, P s0 → _taskCount s0 ≠ 0 → P (remove_at 0 s0)) →
  (∀ f p s0, P s0 → P (invoke f p s0)) →
  P s → update_loop invoke fuel now s = Some (fired, s') → P s'.
Proof.
  intros Hremove Hinvoke. revert s fired s'.
  induction fuel as [|fuel IH]; intros s fired s' HP; [done|].
  simpl. destruct (Nat.eqb_spec (_taskCount s) 0); [by intros [= <- <-]|].
  destruct (before now _); [by intros [= <- <-]|].
  destruct (_taskCount s - 1 =? 0).
  { intros [= <- <-]. by apply Hinvoke, Hremove. }
  destruct (update_loop _ _ _ _) as [[fired' s3]|] eqn:Hrun; [|done].
  intros [= <- <-]. eapply IH; [|done]. by apply Hinvoke, Hremove.
Qed.

Lemma remove_head_sorted s :
  _taskCount s ≤ length (_taskList s) → _taskCount s ≠ 0 →
  table_sorted s → table_sorted (remove_at 0 s).
Proof.
  intros Hlen Hcount Hs.
  apply table_sorted_live; [simpl; rewrite shift_left_length; lia|].
  apply (table_sorted_live s Hlen) in Hs.
  rewrite live_head in Hs by done. by eapply adjacent_sorted_tail.
Qed.
(** One turn of the loop, read on the live tasks: an empty table or a
    head that is not due ends the loop with nothing called; a due head
    is removed and called, and either it was the last live task and the
    loop returns the state its handler left, or the loop goes on with
    the state its handler left. *)
Lemma update_loop_step N invoke fuel now s :
  wf N s →
  (live s = [] → update_loop invoke (S fuel) now s = Some ([], s)) ∧
  (∀ t r, live s = t :: r → ¬ due now t →
     update_loop invoke (S fuel) now s = Some ([], s)) ∧
  (∀ t, live s = [t] → due now t →
     update_loop invoke (S fuel) now s =
       Some ([t], invoke (func t) (param t) (remove_at 0 s))) ∧
  (∀ t r, live s = t :: r → r ≠ [] → due now t →
     live (remove_at 0 s) = r ∧
     update_loop invoke (S fuel) now s =
       (λ x, (t :: x.1, x.2)) <$>
         update_loop invoke fuel now
                     (invoke (func t) (param t) (remove_at 0 s))).
Proof.
  intros [Hlen Hcount].
  pose proof (live_length s ltac:(lia)) as Hlive.
  split_and!.
  - intros Hnil. rewrite Hnil in Hlive. simpl in Hlive.
    simpl. by destruct (Nat.eqb_spec (_taskCount s) 0) as [|]; [|lia].
  - intros t r Hl Hdue. rewrite Hl in Hlive. simpl in Hlive.
    pose proof (live_head s ltac:(lia) ltac:(lia)) as Hhead.
    rewrite Hl in Hhead. injection Hhead as -> _.
    assert (before now (executeTime (_taskList s !!! 0)) = true) as Hcmp.
    { apply not_false_iff_true. by intros Hcmp%before_due. }
    simpl. destruct (Nat.eqb_spec (_taskCount s) 0) as [|_]; [lia|].
    by rewrite Hcmp.
  - intros t Hl Hdue. rewrite Hl in Hlive. simpl in Hlive.
    pose proof (live_head s ltac:(lia) ltac:(lia)) as Hhead.
    rewrite Hl in Hhead. injection Hhead as -> _.
    apply before_due in Hdue.
    simpl. destruct (Nat.eqb_spec (_taskCount s) 0) as [|_]; [lia|].
    rewrite Hdue.
    destruct (Nat.eqb_spec (_taskCount s - 1) 0) as [|]; [done|lia].
  - intros t r Hl Hr Hdue. rewrite Hl in Hlive. simpl in Hlive.
    pose proof (live_head s ltac:(lia) ltac:(lia)) as Hhead.
    rewrite Hl in Hhead. injection Hhead as -> Htail.
    split; [done|].
    apply before_due in Hdue.
    assert (_taskCount s - 1 ≠ 0) as Hmore.
    { destruct r; [done|]. simpl in Hlive. lia. }
    simpl. destruct (Nat.eqb_spec (_taskCount s) 0) as [|_]; [lia|].
    rewrite Hdue.
    destruct (Nat.eqb_spec (_taskCount s - 1) 0) as [|_]; [done|].
    by destruct (update_loop _ _ _ _) as [[fired s3]|].
Qed.

(** The comparison of the source, as arithmetic modulo 2^32: [a] is
    before [b] when the 32-bit difference [a - b] has its sign bit
    set. *)
Lemma before_spec a b :
  before a b = true ↔ (2 ^ 31 ≤ (a - b) mod 2 ^ 32)%Z.
Proof.
  unfold before. rewrite Z.ltb_lt.
  unfold U32.signed, U32.sub, U32.wrap, U32.half, U32.modulus.
  change (2 ^ 32)%Z with 4294967296%Z in *.
  change (2 ^ 31)%Z with 2147483648%Z in *.
  destruct (Z.ltb_spec (((a - b) mod 4294967296) mod 4294967296)
                       2147483648);
    Z.div_mod_to_equations; lia.
Qed.

Lemma due_spec now t :
  due now t ↔ ((now - executeTime t) mod 2 ^ 32 < 2 ^ 31)%Z.
Proof.
  rewrite <-before_due. pose proof (before_spec now (executeTime t)) as H.
  destruct (before now (executeTime t)).
  - split; [done|]. intros Hlt. apply proj1 in H. specialize (H eq_refl). lia.
  - split; [|done]. intros _.
    destruct (Z.lt_ge_cases ((now - executeTime t) mod 2 ^ 32) (2 ^ 31))
      as [|Hge]; [done|].
    apply H in Hge. done.
Qed.

(** In a sorted table inside a window with [now], no task is due when
    the head is not. *)
Lemma not_due_behind base now l :
  in_window base (now :: (executeTime <$> l)) →
  adjacent_sorted l →
  (∀ t, head l = Some t → ¬ due now t) →
  Forall (λ t, ¬ due now t) l.
Proof.
  intros Hwin Hs Hhead.
  destruct (due_prefix_filter base now l Hwin Hs) as [_ Hrest].
  destruct l as [|t r]; [done|].
  assert (before now (executeTime t) = true) as Hcmp.
  { apply not_false_iff_true. intros Hdue%before_due.
    by apply (Hhead t). }
  simpl in Hrest. rewrite Hcmp in Hrest.
  rewrite Forall_forall. intros x Hx.
  rewrite Hrest in Hx. apply list_elem_of_filter in Hx. tauto.
Qed.

(** How the loop returns, whatever the handlers did. *)
Lemma update_loop_exit invoke fuel now s fired s' :
  update_loop invoke fuel now s = Some (fired, s') →
  (∃ t s1, last fired = Some t ∧ _taskCount s1 = 0 ∧
           s' = invoke (func t) (param t) s1) ∨
  _taskCount s' = 0 ∨
  before now (executeTime (_taskList s' !!! 0)) = true.
Proof.
  revert s fired s'. induction fuel as [|fuel IH]; intros s fired s'; [done|].
  simpl. destruct (Nat.eqb_spec (_taskCount s) 0) as [Hzero|Hpos].
  { intros [= <- <-]. right. by left. }
  destruct (before now _) eqn:Hcmp.
  { intros [= <- <-]. right. by right. }
  destruct (Nat.eqb_spec (_taskCount s - 1) 0) as [Hlast|Hmore].
  { intros [= <- <-]. left.
    exists (_taskList s !!! 0), (remove_at 0 s). done. }
  destruct (update_loop _ _ _ _) as [[fired' s3]|] eqn:Hrun; [|done].
  intros [= <- <-].
  destruct (IH _ _ _ Hrun) as [(t & s1 & Hlastt & Hs1 & ->)|Hstop].
  - left. exists t, s1. split_and!; [|done..].
    destruct fired' as [|x fired']; [done|]. done.
  - by right.
Qed.

(** When the loop returns other than by the early exit, no task of a
    sorted table inside a window with [now] is due. *)
Lemma update_loop_none_due N base now s :
  wf N s → table_sorted s → in_window base (now :: times s) →
  _taskCount s = 0 ∨ before now (executeTime (_taskList s !!! 0)) = true →
  Forall (λ t, ¬ due now t) (live s).
Proof.
  intros [Hlen Hcount] Hsorted Hwin Hstop.
  apply table_sorted_live in Hsorted; [|lia].
  apply (not_due_behind base); [done..|].
  intros t Ht. destruct Hstop as [Hzero|Hcmp].
  - unfold live in Ht. by rewrite Hzero, take_0 in Ht.
  - destruct (Nat.eq_dec (_taskCount s) 0) as [Hzero|Hpos].
    { unfold live in Ht. by rewrite Hzero, take_0 in Ht. }
    rewrite (live_head s) in Ht by lia. injection Ht as <-.
    intros Hdue%before_due. congruence.
Qed.

(** The loop returns when no handler adds to the number of due tasks in
    the table: every turn removes one of them. *)
Lemma update_loop_returns N invoke fuel now s :
  (∀ f p s0, wf N s0 →
     wf N (invoke f p s0) ∧
     length (filter (due now) (live (invoke f p s0))) ≤
       length (filter (due now) (live s0))) →
  wf N s → length (filter (due now) (live s)) < fuel →
  ∃ fired s', update_loop invoke fuel now s = Some (fired, s').
Proof.
  intros Hinvoke. revert s.
  induction fuel as [|fuel IH]; intros s Hwf Hfuel; [lia|].
  simpl. destruct (Nat.eqb_spec (_taskCount s) 0) as [Hzero|Hpos].
  { by eexists _, _. }
  destruct (before now _) eqn:Hcmp.
  { by eexists _, _. }
  destruct (Nat.eqb_spec (_taskCount s - 1) 0) as [Hlast|Hmore].
  { by eexists _, _. }
  pose proof Hwf as [Hlen Hcount].
  rewrite (live_head s) in Hfuel by lia.
  rewrite filter_cons_True in Hfuel by (by apply before_due).
  simpl in Hfuel.
  destruct (Hinvoke (func (_taskList s !!! 0)) (param (_taskList s !!! 0))
              (remove_at 0 s)) as [Hwf2 Hdue2]; [by apply remove_at_wf|].
  destruct (IH _ Hwf2 ltac:(lia)) as (fired & s' & ->).
  by eexists _, _.
Qed.
End Drain.

(** ** Identifiers *)

Section Identifiers.
Context {Func Param : Type}.
Implicit Types (l : list (Task Func Param)) (s : Sched Func Param).
Implicit Types (t : Task Func Param).

Lemma remove_first_insert taskId l1 l2 t :
  taskId ∉ id <$> l1 → id t = taskId →
  remove_first taskId (l1 ++ t :: l2) = l1 ++ l2.
Proof.
  intros Hnot Hid. induction l1 as [|x l1 IH]; simpl.
  - by rewrite (proj2 (Z.eqb_eq _ _) Hid).
  - rewrite fmap_cons in Hnot. apply not_elem_of_cons in Hnot as [Hne Hnot].
    destruct (Z.eqb_spec (id x) taskId); [congruence|].
    by rewrite IH.
Qed.

Lemma remove_first_length taskId l :
  taskId ∈ id <$> l → S (length (remove_first taskId l)) = length l.
Proof.
  induction l as [|x l IH]; simpl.
  - by intros ?%elem_of_nil.
  - intros Hin. destruct (Z.eqb_spec (id x) taskId) as [Heq|Hne]; [done|].
    simpl. rewrite IH; [done|].
    apply elem_of_cons in Hin as [Heq|Hin]; [congruence|done].
Qed.

(** With distinct identifiers, the removed identifier is gone. *)
Lemma remove_first_gone taskId l :
  NoDup (id <$> l) → taskId ∉ id <$> remove_first taskId l.
Proof.
  induction l as [|x l IH]; simpl.
  - intros _ ?%elem_of_nil. done.
  - intros [Hx Hl]%NoDup_cons.
    destruct (Z.eqb_spec (id x) taskId) as [Heq|Hne]; [by subst|].
    rewrite fmap_cons. apply not_elem_of_cons. split; [done|by apply IH].
Qed.





End Identifiers.

(** ** Dispatch, order and capacity *)

Section Contracts.
Context {Func Param : Type}.
Implicit Types (l : list (Task Func Param)) (s : Sched Func Param).
Implicit Types (t : Task Func Param).

(** C1, as amended.  In a well-formed state, whatever the handlers do:
    a turn of the loop of [update] ends the loop when the table is empty
    or its head has [signed32(now - T) < 0], and otherwise removes the
    head and calls it, then goes on with the table the handler left -
    except when the removal emptied the table: [update] then returns
    right after the handler, with the state the handler left (the early
    exit).  So only tasks with [signed32(now - T) >= 0] are called,
    and when [update] returns otherwise than by the early exit, the
    table is empty or its head has [signed32(now - T) < 0], and every
    task still in the table has [signed32(now - T) < 0] provided that
    table is sorted and lies, with the sampled tick [now], within one
    window of 2^31 ticks - as it does when the table at the call does
    and every handler keeps it so.  [update] returns when no handler
    adds to the number of due tasks in the table.  With handlers that
    leave the scheduler alone it calls, in table order, the longest
    prefix of due tasks, which in a sorted table inside the window are
    exactly the live tasks with [signed32(now - T) >= 0], and leaves
    exactly those with [signed32(now - T) < 0]. *)
Theorem update_dispatches_due N now s :
  wf N s →
  (∀ invoke fuel,
     (live s = [] → update_loop invoke (S fuel) now s = Some ([], s)) ∧
     (∀ t r, live s = t :: r → ¬ due now t →
        update_loop invoke (S fuel) now s = Some ([], s)) ∧
     (∀ t, live s = [t] → due now t →
        update_loop invoke (S fuel) now s =
          Some ([t], invoke (func t) (param t) (remove_at 0 s))) ∧
     (∀ t r, live s = t :: r → r ≠ [] → due now t →
        live (remove_at 0 s) = r ∧
        update_loop invoke (S fuel) now s =
          (λ x, (t :: x.1, x.2)) <$>
            update_loop invoke fuel now
                        (invoke (func t) (param t) (remove_at 0 s)))) ∧
  (∀ invoke fuel fired s',
     update_loop invoke fuel now s = Some (fired, s') →
     Forall (due now) fired ∧
     ((∃ t s1, last fired = Some t ∧ _taskCount s1 = 0 ∧
               s' = invoke (func t) (param t) s1) ∨
      ((_taskCount s' = 0 ∨
        before now (executeTime (_taskList s' !!! 0)) = true) ∧
       ∀ base, wf N s' → table_sorted s' →
               in_window base (now :: times s') →
               Forall (λ t, ¬ due now t) (live s')))) ∧
  (∀ base invoke fuel fired s',
     table_sorted s → in_window base (now :: times s) →
     (∀ f p s0,
        wf N s0 ∧ table_sorted s0 ∧ in_window base (now :: times s0) →
        wf N (invoke f p s0) ∧ table_sorted (invoke f p s0) ∧
        in_window base (now :: times (invoke f p s0))) →
     update_loop invoke fuel now s = Some (fired, s') →
     (∃ t s1, last fired = Some t ∧ _taskCount s1 = 0 ∧
              s' = invoke (func t) (param t) s1) ∨
     Forall (λ t, ¬ due now t) (live s')) ∧
  (∀ invoke,
     (∀ f p s0, wf N s0 →
        wf N (invoke f p s0) ∧
        length (filter (due now) (live (invoke f p s0))) ≤
          length (filter (due now) (live s0))) →
     ∃ fired s',
       update_loop invoke (S (length (filter (due now) (live s)))) now s =
         Some (fired, s')) ∧
  (∃ s', update now s = Some (due_prefix now (live s), s') ∧
         live s' = due_rest now (live s) ∧
         live s = due_prefix now (live s) ++ live s' ∧
         _id s' = _id s) ∧
  (∀ base,
     table_sorted s → in_window base (now :: times s) →
     ∃ s', update now s = Some (filter (due now) (live s), s') ∧
           live s' = filter (λ t, ¬ due now t) (live s) ∧
           live s = filter (due now) (live s) ++ live s' ∧
           _taskCount s' = length (live s') ∧
           _id s' = _id s).
Proof.
  intros Hwf.
  destruct (update_idle N now s Hwf)
    as (s' & Hrun & [Hlen' Hcount'] & Hlive & Hid).
  split_and!.
  - intros invoke fuel. by apply (update_loop_step N).
  - intros invoke fuel fired s0 Hloop. split.
    { by eapply update_loop_fired_due. }
    destruct (update_loop_exit _ _ _ _ _ _ Hloop) as [Hearly|Hstop];
      [by left|right].
    split; [done|]. intros base Hwf0 Hsorted0 Hwin0.
    by apply (update_loop_none_due N base).
  - intros base invoke fuel fired s0 Hsorted Hwin Hinvoke Hloop.
    destruct (update_loop_exit _ _ _ _ _ _ Hloop) as [Hearly|Hstop];
      [by left|right].
    assert (wf N s0 ∧ table_sorted s0 ∧ in_window base (now :: times s0))
      as (Hwf0 & Hsorted0 & Hwin0).
    { eapply (update_loop_invariant
                (λ s0, wf N s0 ∧ table_sorted s0 ∧
                       in_window base (now :: times s0)));
        [|exact Hinvoke| |exact Hloop]; [|done].
      intros s1 (Hwf1 & Hsorted1 & Hwin1) Hpos. split_and!.
      - by apply remove_at_wf.
      - destruct Hwf1. apply remove_head_sorted; [lia|done..].
      - apply Forall_cons in Hwin1 as [Hnow Hwin1].
        apply Forall_cons_2; [done|].
        destruct Hwf1 as [Hlen1 Hcount1].
        unfold times in *. rewrite (live_head s1) in Hwin1 by lia.
        rewrite fmap_cons in Hwin1.
        by apply Forall_cons in Hwin1 as [_ Hwin1]. }
    by apply (update_loop_none_due N base).
  - intros invoke Hinvoke. apply (update_loop_returns N); [done..|lia].
  - exists s'. split_and!; try done.
    by rewrite Hlive, due_prefix_rest.
  - intros base Hsorted Hwin. destruct Hwf as [Hlen Hcount].
    apply table_sorted_live in Hsorted; [|lia].
    destruct (due_prefix_filter base now (live s) Hwin Hsorted)
      as [Hpre Hrest].
    exists s'. rewrite <-Hpre, <-Hrest, Hlive. split_and!; try done.
    + by rewrite due_prefix_rest.
    + rewrite <-Hlive. symmetry. apply live_length. lia.
Qed.




(** C3, as amended.  [scheduleTask] returns 0 whenever the table still
    holds [N] tasks after the reuse removal, and then the state is the
    one after that removal; when the identifier it hands out is not 0
    (a non-zero [reuseId], or a non-zero counter), it returns 0 only
    then; and a non-zero [reuseId] that matches a live task of a full
    table frees a slot, so that the call inserts the task and returns
    [reuseId]. *)
Theorem scheduleTask_capacity N now f p delay reuseId s :
  wf N s →
  (N ≤ _taskCount (after_reuse reuseId s) →
     scheduleTask N now f p delay reuseId s = (0%Z, after_reuse reuseId s)) ∧
  (assigned_id reuseId s ≠ 0%Z →
     (scheduleTask N now f p delay reuseId s).1 = 0%Z ↔
     N ≤ _taskCount (after_reuse reuseId s)) ∧
  (reuseId ≠ 0%Z → reuseId ∈ ids s → _taskCount s = N →
     (scheduleTask N now f p delay reuseId s).1 = reuseId ∧
     _taskCount (scheduleTask N now f p delay reuseId s).2 = N ∧
     ∃ slot,
       live (scheduleTask N now f p delay reuseId s).2 =
         take slot (remove_first reuseId (live s)) ++
         mkTask (U32.add now delay) (Some f) p reuseId ::
         drop slot (remove_first reuseId (live s))).
Proof.
  intros Hwf. split_and!.
  - apply scheduleTask_full.
  - intros Hassigned. split.
    + intros Hret.
      destruct (decide (N ≤ _taskCount (after_reuse reuseId s))) as [|Hfree];
        [done|].
      destruct (scheduleTask_free N now f p delay reuseId s Hwf ltac:(lia))
        as (slot & s' & Heq & _).
      rewrite Heq in Hret. done.
    + intros Hfull. by rewrite scheduleTask_full.
  - intros Hreuse Hin Hfull.
    pose proof (after_reuse_live N reuseId s Hwf) as Hlive1.
    assert (_taskCount (after_reuse reuseId s) =
            length (remove_first reuseId (live s))) as Hcount1.
    { unfold after_reuse. rewrite (proj2 (Z.eqb_neq _ _) Hreuse).
      apply remove_id_count. destruct Hwf; lia. }
    rewrite (proj2 (Z.eqb_neq _ _) Hreuse) in Hlive1.
    pose proof (remove_first_length reuseId (live s) Hin) as Hlen.
    rewrite live_length in Hlen by (destruct Hwf; lia).
    destruct (scheduleTask_free N now f p delay reuseId s Hwf ltac:(lia))
      as (slot & s' & -> & _ & Hcount & _ & _ & Hlive & _).
    simpl. unfold assigned_id in *.
    rewrite (proj2 (Z.eqb_neq _ _) Hreuse) in *.
    split_and!; [done|lia|]. exists slot. by rewrite Hlive, Hlive1.
Qed.

(** C4, as amended.  A call of [scheduleTask] that finds a free slot
    returns [reuseId] when [reuseId] is not 0, and otherwise the current
    value of the identity counter, which it then increments modulo 2^32
    (0 is not skipped); this holds for every value of the counter.  The
    returned identifier is not 0 exactly when [reuseId] or the counter
    is not 0. *)
Theorem scheduleTask_id N now f p delay reuseId s :
  wf N s → _taskCount (after_reuse reuseId s) < N →
  (scheduleTask N now f p delay reuseId s).1 =
    (if (reuseId =? 0)%Z then _id s else reuseId) ∧
  _id (scheduleTask N now f p delay reuseId s).2 =
    (if (reuseId =? 0)%Z then ((_id s + 1) mod 2 ^ 32)%Z else _id s) ∧
  ((scheduleTask N now f p delay reuseId s).1 ≠ 0%Z ↔
   (reuseId ≠ 0 ∨ _id s ≠ 0)%Z).
Proof.
  intros Hwf Hfree.
  destruct (scheduleTask_free N now f p delay reuseId s Hwf Hfree)
    as (slot & s' & -> & _ & _ & Hid & _).
  simpl. rewrite Hid. unfold assigned_id, next_id.
  destruct (Z.eqb_spec reuseId 0) as [->|Hne];
    (split; [|split]); try done; lia.
Qed.
End Contracts.

(** ** Round trip, absent identifiers and reuse *)

Section Frames.
Context {Func Param : Type}.
Implicit Types (l : list (Task Func Param)) (s : Sched Func Param).
Implicit Types (t : Task Func Param).

Lemma after_reuse_absent N reuseId s :
  wf N s → reuseId ∉ ids s → after_reuse reuseId s = s.
Proof.
  intros [Hlen Hcount] Hnot. unfold after_reuse, remove_id.
  destruct (reuseId =? 0)%Z; [done|].
  by rewrite find_id_absent by (done || lia).
Qed.

Lemma after_reuse_zero s : after_reuse 0 s = s.
Proof. done. Qed.

(** C8, as amended.  From a well-formed state with a free slot in which
    no live task carries the current value of the identity counter, a
    fresh [scheduleTask] returns that value, and [unscheduleTask] of the
    returned identifier restores the live tasks, their order and
    [_taskCount]; the counter has advanced by one (modulo 2^32). *)
Theorem schedule_unschedule_roundtrip N now f p delay s :
  wf N s → _taskCount s < N → _id s ∉ ids s →
  (scheduleTask N now f p delay 0 s).1 = _id s ∧
  live (unscheduleTask (scheduleTask N now f p delay 0 s).1
                       (scheduleTask N now f p delay 0 s).2) = live s ∧
  _taskCount (unscheduleTask (scheduleTask N now f p delay 0 s).1
                             (scheduleTask N now f p delay 0 s).2) =
    _taskCount s ∧
  _id (unscheduleTask (scheduleTask N now f p delay 0 s).1
                      (scheduleTask N now f p delay 0 s).2) =
    U32.add (_id s) 1.
Proof.
  intros Hwf Hfree Hnot.
  destruct (scheduleTask_free N now f p delay 0 s Hwf Hfree)
    as (slot & s' & -> & [Hlen' Hcount'] & _ & Hid & Hslot & Hlive & _).
  rewrite after_reuse_zero in *. simpl.
  change (assigned_id 0 s) with (_id s) in *.
  change (next_id 0 s) with (U32.add (_id s) 1) in *.
  unfold unscheduleTask.
  assert (remove_first (_id s) (live s') = live s) as Hback.
  { rewrite Hlive, remove_first_insert, take_drop; [done| |done].
    intros Hin. apply Hnot. unfold ids.
    rewrite <-(take_drop slot (live s)), fmap_app.
    apply elem_of_app. by left. }
  split_and!; [done| | |].
  - by rewrite live_remove_id by lia.
  - rewrite remove_id_count by lia. rewrite Hback.
    apply live_length. destruct Hwf; lia.
  - by rewrite remove_id_id.
Qed.

Lemma unscheduleTask_gone N taskId s :
  wf N s → NoDup (ids s) → taskId ∉ ids (unscheduleTask taskId s).
Proof.
  intros [Hlen Hcount] Hnodup. unfold ids, unscheduleTask.
  rewrite live_remove_id by lia. by apply remove_first_gone.
Qed.

(** C9, as amended.  [unscheduleTask] of an identifier that no live
    task carries returns the state it was given: array, [_taskCount] and
    identity counter.  So a second [unscheduleTask] of an identifier
    changes nothing when no live task carries it after the first one,
    which is the case whenever the live identifiers are distinct. *)
Theorem unscheduleTask_absent N taskId s :
  wf N s →
  (taskId ∉ ids s → unscheduleTask taskId s = s) ∧
  (taskId ∉ ids (unscheduleTask taskId s) →
     unscheduleTask taskId (unscheduleTask taskId s) =
     unscheduleTask taskId s) ∧
  (NoDup (ids s) →
     unscheduleTask taskId (unscheduleTask taskId s) =
     unscheduleTask taskId s).
Proof.
  intros Hwf.
  assert (∀ s0, wf N s0 → taskId ∉ ids s0 → unscheduleTask taskId s0 = s0)
    as Habsent.
  { intros s0 [Hlen0 Hcount0] Hnot. unfold unscheduleTask, remove_id.
    by rewrite find_id_absent by (done || lia). }
  pose proof (remove_id_wf N taskId s Hwf) as Hwf'.
  split_and!.
  - by apply Habsent.
  - by apply Habsent.
  - intros Hnodup. apply Habsent; [done|]. by eapply unscheduleTask_gone.
Qed.

(** C10.  A non-zero [reuseId] that no live task carries makes
    [scheduleTask] a plain insertion: with a free slot it returns
    [reuseId] and inserts the task with that identifier at the slot where
    a fresh schedule would have put it.  With a non-zero [reuseId] the
    identity counter keeps its value and has no influence on the result;
    [scheduleTask] changes it only when [reuseId] is 0 and a slot was
    free, and [unscheduleTask] never does. *)
Theorem reuse_without_match N now f p delay reuseId s :
  wf N s → reuseId ≠ 0%Z →
  (reuseId ∉ ids s → _taskCount s < N →
     ∃ slot,
       (scheduleTask N now f p delay reuseId s).1 = reuseId ∧
       live (scheduleTask N now f p delay reuseId s).2 =
         take slot (live s) ++
         mkTask (U32.add now delay) (Some f) p reuseId :: drop slot (live s) ∧
       live (scheduleTask N now f p delay 0 s).2 =
         take slot (live s) ++
         mkTask (U32.add now delay) (Some f) p (_id s) :: drop slot (live s)) ∧
  _id (scheduleTask N now f p delay reuseId s).2 = _id s ∧
  (∀ c,
     scheduleTask N now f p delay reuseId
                  (mkSched (_taskList s) (_taskCount s) c) =
     ((scheduleTask N now f p delay reuseId s).1,
      mkSched (_taskList (scheduleTask N now f p delay reuseId s).2)
              (_taskCount (scheduleTask N now f p delay reuseId s).2) c)) ∧
  (∀ r, _id (scheduleTask N now f p delay r s).2 ≠ _id s →
        r = 0%Z ∧ _taskCount s < N) ∧
  (∀ taskId, _id (unscheduleTask taskId s) = _id s).
Proof.
  intros Hwf Hreuse.
  assert (∀ r, r ≠ 0%Z → _id (scheduleTask N now f p delay r s).2 = _id s)
    as Hkeep.
  { intros r Hr. unfold scheduleTask. rewrite (proj2 (Z.eqb_neq _ _) Hr).
    destruct (_ <=? _); [apply remove_id_id|].
    destruct (insert_shift _ _ _); simpl. apply remove_id_id. }
  split_and!.
  - intros Hnot Hfree.
    pose proof (after_reuse_absent N reuseId s Hwf Hnot) as Hsame.
    pose proof (scheduleTask_free_at N now f p delay reuseId s Hwf) as Hre.
    pose proof (scheduleTask_free_at N now f p delay 0 s Hwf) as Hfr.
    rewrite Hsame in Hre. rewrite after_reuse_zero in Hfr.
    destruct (Hre Hfree) as (s1 & -> & _ & _ & _ & _ & Hlive1 & _).
    destruct (Hfr Hfree) as (s2 & -> & _ & _ & _ & _ & Hlive2 & _).
    eexists. simpl. unfold assigned_id in *.
    rewrite (proj2 (Z.eqb_neq _ _) Hreuse) in *.
    split_and!; [done|exact Hlive1|exact Hlive2].
  - by apply Hkeep.
  - intros c. unfold scheduleTask. rewrite (proj2 (Z.eqb_neq _ _) Hreuse).
    unfold remove_id; simpl.
    destruct (find_id _ _ _ _); simpl.
    + destruct (_ <=? _); [done|]. by destruct (insert_shift _ _ _).
    + destruct (_ <=? _); [done|]. by destruct (insert_shift _ _ _).
  - intros r Hchanged.
    destruct (decide (r = 0%Z)) as [->|Hr]; [|by destruct Hchanged; apply Hkeep].
    split; [done|]. unfold scheduleTask in Hchanged. simpl in Hchanged.
    destruct (Nat.leb_spec N (_taskCount s)); [done|lia].
  - intros taskId. apply remove_id_id.
Qed.
End Frames.

(** ** Wrap-around of the tick counter *)

Section Wraparound.
Context {Func Param : Type}.
Implicit Types (l : list (Task Func Param)) (s : Sched Func Param).
Implicit Types (t : Task Func Param).

Lemma init_wf N : wf N (init (Func:=Func) (Param:=Param) N).
Proof. split; simpl; [apply length_replicate|lia]. Qed.

Lemma init_live N : live (init (Func:=Func) (Param:=Param) N) = [].
Proof. done. Qed.

(** The ticks of the last ten ticks before the wrap are strictly before
    tick 10. *)
Lemma before_wrap tick :
  (2 ^ 32 - 10 ≤ tick ≤ 2 ^ 32 - 1)%Z → before tick 10 = true.
Proof.
  intros Htick. unfold before. apply Z.ltb_lt.
  unfold U32.signed, U32.sub, U32.wrap, U32.half, U32.modulus.
  change (2 ^ 32)%Z with 4294967296%Z in *.
  change (2 ^ 31)%Z with 2147483648%Z in *.
  destruct (Z.ltb_spec (((tick - 10) mod 4294967296) mod 4294967296)
                       2147483648);
    Z.div_mod_to_equations; lia.
Qed.

(** A table with one live task: the loop of [update] returns at once
    when the task is not due, and calls it (and returns by the early
    exit) when it is, whatever the handler does. *)
Lemma update_loop_single invoke fuel now s t :
  _taskCount s ≤ length (_taskList s) → live s = [t] →
  update_loop invoke (S fuel) now s =
    if before now (executeTime t) then Some ([], s)
    else Some ([t], invoke (func t) (param t) (remove_at 0 s)).
Proof.
  intros Hlen Hlive.
  assert (_taskCount s = 1) as Hcount.
  { rewrite <-(live_length s Hlen), Hlive. done. }
  assert (_taskList s !!! 0 = t) as Hhead.
  { pose proof (live_lookup s 0 ltac:(lia) Hlen) as Hl.
    rewrite Hlive in Hl. by injection Hl. }
  simpl. rewrite Hcount, Hhead. simpl.
  by destruct (before now (executeTime t)).
Qed.

(** C6.  [scheduleTask] stores [(now + delay) mod 2^32] as the execute
    time of the task it inserts.  Whether [update] calls the head of the
    table is decided by the sign bit of the 32-bit difference
    [(now - T) mod 2^32] alone: when it is 2^31 or more the loop returns
    with nothing called, and when it is below 2^31 the head is removed
    and called, whatever the handlers do.  Scheduled on a fresh
    scheduler at tick [2^32 - 10] with delay 20, the task gets execute
    time 10; an [update] whose sampled tick lies in
    [[2^32 - 10, 2^32 - 1]] calls no handler and leaves the state as it
    is, and an [update] whose sampled tick is 10 calls the task. *)
Theorem tick_wraparound N f p :
  1 ≤ N →
  (∀ now delay reuseId s,
     wf N s → _taskCount (after_reuse reuseId s) < N →
     ∃ t, t ∈ live (scheduleTask N now f p delay reuseId s).2 ∧
          executeTime t = ((now + delay) mod 2 ^ 32)%Z ∧
          func t = Some f ∧ param t = p) ∧
  (executeTime <$> live (scheduleTask N (2 ^ 32 - 10) f p 20 0 (init N)).2
     = [10%Z]) ∧
  (∀ invoke fuel tick,
     (2 ^ 32 - 10 ≤ tick ≤ 2 ^ 32 - 1)%Z →
     update_loop invoke (S fuel) tick
                 (scheduleTask N (2 ^ 32 - 10) f p 20 0 (init N)).2 =
     Some ([], (scheduleTask N (2 ^ 32 - 10) f p 20 0 (init N)).2)) ∧
  (∀ invoke fuel, ∃ s',
     update_loop invoke (S fuel) 10
                 (scheduleTask N (2 ^ 32 - 10) f p 20 0 (init N)).2 =
     Some (live (scheduleTask N (2 ^ 32 - 10) f p 20 0 (init N)).2, s')) ∧
  (∀ invoke fuel now s t r,
     wf N s → live s = t :: r →
     ((2 ^ 31 ≤ (now - executeTime t) mod 2 ^ 32)%Z →
      update_loop invoke (S fuel) now s = Some ([], s)) ∧
     (((now - executeTime t) mod 2 ^ 32 < 2 ^ 31)%Z →
      update_loop invoke (S fuel) now s =
        match r with
        | [] => Some ([t], invoke (func t) (param t) (remove_at 0 s))
        | _ :: _ =>
            (λ x, (t :: x.1, x.2)) <$>
              update_loop invoke fuel now
                          (invoke (func t) (param t) (remove_at 0 s))
        end)).
Proof.
  intros HN.
  destruct (scheduleTask_free N (2 ^ 32 - 10) f p 20 0 (init N)
              (init_wf N) ltac:(simpl; lia))
    as (slot & s' & -> & [Hlen' Hcount'] & _ & _ & Hslot & Hlive & _).
  cbn [fst snd].
  rewrite after_reuse_zero, init_live, take_nil, drop_nil in Hlive.
  simpl in Hlive.
  change (U32.add (2 ^ 32 - 10) 20) with 10%Z in Hlive.
  split_and!.
  - intros now delay reuseId s Hwf Hfree.
    destruct (scheduleTask_free N now f p delay reuseId s Hwf Hfree)
      as (slot0 & s0 & -> & _ & _ & _ & _ & Hlive0 & _).
    eexists. cbn [fst snd]. rewrite Hlive0.
    split; [apply elem_of_app; right; apply list_elem_of_here|].
    split_and!; reflexivity.
  - by rewrite Hlive.
  - intros invoke fuel tick Htick.
    rewrite (update_loop_single invoke fuel tick s' _ ltac:(lia) Hlive).
    cbn [executeTime]. by rewrite before_wrap.
  - intros invoke fuel. eexists.
    rewrite (update_loop_single invoke fuel 10 s' _ ltac:(lia) Hlive).
    cbn [executeTime]. rewrite before_irrefl, Hlive. done.
  - intros invoke fuel now s t r Hwf Hl.
    destruct (update_loop_step N invoke fuel now s Hwf)
      as (_ & Hlate & Hlast & Hnext).
    split.
    + intros Hsign. apply (Hlate t r Hl).
      rewrite due_spec. lia.
    + intros Hsign. apply due_spec in Hsign.
      destruct r as [|t' r].
      * by apply Hlast.
      * by apply (Hnext t (t' :: r)).
Qed.
End Wraparound.

(** ** First in, first out among equal deadlines *)

Section Fifo.
Import SchedulerHelper.
Implicit Types (h : SchedulerHelper.t) (l : list (Task Handler Mock)).

Lemma StronglySorted_insert {A} (R : relation A) (l1 l2 : list A) (x : A) :
  StronglySorted R (l1 ++ l2) →
  Forall (λ y, R y x) l1 → Forall (R x) l2 →
  StronglySorted R (l1 ++ x :: l2).
Proof.
  intros (Hcross & Hs1 & Hs2)%StronglySorted_app Hleft Hright.
  rewrite Forall_forall in Hleft.
  apply StronglySorted_app_2; [|done|by apply StronglySorted_cons].
  intros y z Hy [->|Hz]%elem_of_cons; [by apply Hleft|by apply Hcross].
Qed.

Lemma StronglySorted_lookup {A} (R : relation A) (l : list A) i j a b :
  StronglySorted R l → l !! i = Some a → l !! j = Some b → i < j → R a b.
Proof.
  intros Hs Ha Hb Hij. rewrite <-(take_drop (S i) l) in Hs.
  eapply StronglySorted_app_1_elem_of; [exact Hs| |].
  - apply list_elem_of_lookup. exists i. by rewrite lookup_take_lt by lia.
  - apply list_elem_of_lookup. exists (j - S i). rewrite lookup_drop.
    by replace (S i + (j - S i)) with j by lia.
Qed.

Lemma helper_inv_create N : helper_inv N (create N).
Proof.
  split_and!; simpl.
  - apply init_wf.
  - constructor.
  - constructor.
Qed.

Lemma after_reuse_sublist N reuseId (s : Sched Handler Mock) :
  wf N s → live (after_reuse reuseId s) `sublist_of` live s.
Proof.
  intros Hwf. rewrite (after_reuse_live N) by done.
  destruct (reuseId =? 0)%Z; [done|]. apply remove_first_sublist.
Qed.

Lemma helper_inv_sublist N h s' n :
  helper_inv N h → wf N s' → live s' `sublist_of` live (scheduler h) →
  completion h ≤ n →
  helper_inv N (mk s' n (fired h)).
Proof.
  intros (Hwf & Hsorted & Hmocks) Hwf' Hsub Hn.
  assert ((fired h ++ live s') `sublist_of` (fired h ++ live (scheduler h)))
    as Hsub' by (by apply sublist_app).
  split_and!; simpl; [done|by eapply StronglySorted_sublist|].
  rewrite Forall_forall in Hmocks |- *. intros t Ht.
  destruct (Hmocks t) as (k & Hk & Hlt); [by eapply elem_of_sublist|].
  exists k. split; [done|lia].
Qed.

Lemma helper_inv_schedule N now delay reuseId h :
  helper_inv N h → helper_inv N (schedule N now delay reuseId h).2.
Proof.
  intros Hinv. pose proof Hinv as (Hwf & Hsorted & Hmocks).
  pose proof (after_reuse_wf N reuseId _ Hwf) as Hwf1.
  pose proof (after_reuse_sublist N reuseId _ Hwf) as Hsub.
  pose proof (helper_inv_sublist N h _ (completion h) Hinv Hwf1 Hsub
                ltac:(lia)) as (_ & Hsorted1 & Hmocks1).
  simpl in Hsorted1, Hmocks1.
  unfold schedule.
  destruct (decide (N ≤ _taskCount (after_reuse reuseId (scheduler h))))
    as [Hfull|Hfree].
  { rewrite scheduleTask_full by done. simpl.
    apply (helper_inv_sublist N h _ _ Hinv Hwf1 Hsub). lia. }
  apply Nat.nle_gt in Hfree.
  destruct (scheduleTask_free N now tt (Some (completion h)) delay reuseId
              (scheduler h) Hwf Hfree)
    as (slot & s' & -> & Hwf' & _ & _ & _ & Hlive & Hafter & _).
  simpl. set (l1 := live (after_reuse reuseId (scheduler h))) in *.
  rewrite <-(take_drop slot l1), app_assoc in Hsorted1, Hmocks1.
  apply Forall_app in Hmocks1 as [Hm1 Hm2].
  unfold helper_inv; simpl. rewrite Hlive, app_assoc.
  split_and!; [done|..].
  - apply StronglySorted_insert; [done| |].
    + eapply Forall_impl; [exact Hm1|]. simpl.
      intros t (k & Hk & Hlt) _. exists k, (completion h). done.
    + eapply Forall_impl; [exact Hafter|]. simpl.
      intros t Hbefore Heq. simpl in Heq.
      rewrite <-Heq, before_irrefl in Hbefore. done.
  - apply Forall_app. split; [|constructor].
    + eapply Forall_impl; [exact Hm1|]. simpl.
      intros t (k & Hk & Hlt). exists k. split; [done|lia].
    + exists (completion h). simpl. split; [done|lia].
    + eapply Forall_impl; [exact Hm2|]. simpl.
      intros t (k & Hk & Hlt). exists k. split; [done|lia].
Qed.

Lemma helper_inv_update N now h :
  helper_inv N h → helper_inv N (SchedulerHelper.update now h).
Proof.
  intros (Hwf & Hsorted & Hmocks). unfold SchedulerHelper.update.
  destruct (update_idle N now _ Hwf) as (s' & -> & Hwf' & Hlive & _).
  unfold helper_inv; simpl.
  rewrite Hlive, <-app_assoc, due_prefix_rest. done.
Qed.

Lemma helper_inv_step N h o : helper_inv N h → helper_inv N (step N h o).
Proof.
  intros Hinv. destruct o as [now delay reuseId|taskId|now]; simpl.
  - by apply helper_inv_schedule.
  - pose proof Hinv as (Hwf & _).
    apply (helper_inv_sublist N h); [done|by apply remove_id_wf| |lia].
    unfold unscheduleTask. rewrite live_remove_id by (destruct Hwf; lia).
    apply remove_first_sublist.
  - by apply helper_inv_update.
Qed.

Lemma helper_inv_run N ops : helper_inv N (run N ops).
Proof.
  unfold run. generalize (helper_inv_create N).
  generalize (create N). induction ops as [|o ops IH]; intros h Hinv; [done|].
  simpl. by apply IH, helper_inv_step.
Qed.

(** C5.  When [scheduleTask] inserts a task, every task that ends up
    behind the newcomer has an execute time strictly after the target
    ([signed32(target - T) < 0]), so a task with the same deadline stays
    in front of it.  Hence, in any run of schedule, unschedule and update
    calls of the test helper, of two tasks with equal execute times that
    were both called, the one called first was scheduled first. *)
Theorem equal_deadlines_fifo N :
  (∀ now f p delay reuseId (s : Sched Handler Mock),
     wf N s → _taskCount (after_reuse reuseId s) < N →
     ∃ slot,
       live (scheduleTask N now f p delay reuseId s).2 =
         take slot (live (after_reuse reuseId s)) ++
         mkTask (U32.add now delay) (Some f) p (assigned_id reuseId s) ::
         drop slot (live (after_reuse reuseId s)) ∧
       Forall (λ t, before (U32.add now delay) (executeTime t) = true ∧
                    executeTime t ≠ U32.add now delay)
              (drop slot (live (after_reuse reuseId s)))) ∧
  (∀ ops i j a b,
     fired (run N ops) !! i = Some a → fired (run N ops) !! j = Some b →
     i < j → fifo a b).
Proof.
  split.
  - intros now f p delay reuseId s Hwf Hfree.
    destruct (scheduleTask_free N now f p delay reuseId s Hwf Hfree)
      as (slot & s' & -> & _ & _ & _ & _ & Hlive & Hafter & _).
    exists slot. split; [done|].
    eapply Forall_impl; [exact Hafter|]. simpl.
    intros t Hbefore. split; [done|].
    intros Heq. rewrite Heq, before_irrefl in Hbefore. done.
  - intros ops i j a b Ha Hb Hij.
    destruct (helper_inv_run N ops) as (_ & Hsorted & _).
    apply StronglySorted_app_1_l in Hsorted.
    by eapply StronglySorted_lookup.
Qed.
End Fifo.

(** ** Reachable states *)

Section Reachable.
Context {Func Param : Type}.
Implicit Types (l : list (Task Func Param)) (s : Sched Func Param).

Lemma scheduleTask_wf N now f p delay reuseId s :
  wf N s → wf N (scheduleTask N now f p delay reuseId s).2.
Proof.
  intros Hwf.
  destruct (decide (N ≤ _taskCount (after_reuse reuseId s))) as [Hfull|Hfree].
  - rewrite scheduleTask_full by done. by apply after_reuse_wf.
  - destruct (scheduleTask_free N now f p delay reuseId s Hwf ltac:(lia))
      as (slot & s' & -> & Hwf' & _). done.
Qed.

Lemma reachable_wf N s : reachable N s → wf N s.
Proof.
  induction 1 as [|now f p delay reuseId s _ _ _ _ IH|taskId s _ IH
                  |now s fired s' _ IH Hrun].
  - apply init_wf.
  - by apply scheduleTask_wf.
  - by apply remove_id_wf.
  - destruct (update_idle N now s IH) as (s0 & Hrun0 & Hwf0 & _).
    rewrite Hrun0 in Hrun. by injection Hrun as _ <-.
Qed.


(** The identity counter takes every value: each fresh schedule
    advances it by one, and the table can be emptied again. *)
Lemma counter_reachable N (f : Func) (n : nat) :
  1 ≤ N →
  ∃ s, reachable N s ∧ live s = [] ∧ _taskCount s = 0 ∧
       _id s = U32.wrap (1 + Z.of_nat n).
Proof.
  intros HN. induction n as [|n (s & Hreach & Hlive & Hcount & Hid)].
  { exists (init N). split_and!; try done. constructor. }
  pose proof (reachable_wf N s Hreach) as Hwf.
  assert (reachable N (scheduleTask N 0 f None 0 0 s).2) as Hreach1.
  { by apply reachable_schedule. }
  destruct (scheduleTask_free N 0 f None 0 0 s Hwf)
    as (slot & s1 & Heq & Hwf1 & _ & Hid1 & _ & Hlive1 & _).
  { rewrite after_reuse_zero. lia. }
  rewrite Heq in Hreach1. simpl in Hreach1.
  rewrite after_reuse_zero, Hlive, take_nil, drop_nil in Hlive1.
  simpl in Hlive1.
  destruct (update_idle N 0 s1 Hwf1) as (s2 & Hrun & Hwf2 & Hlive2 & Hid2).
  rewrite Hlive1 in Hlive2. cbn [due_rest executeTime] in Hlive2.
  rewrite before_irrefl in Hlive2.
  exists s2. split_and!.
  - by eapply reachable_update.
  - done.
  - destruct Hwf2. rewrite <-(live_length s2) by lia. by rewrite Hlive2.
  - rewrite Hid2, Hid1. unfold next_id; simpl. rewrite Hid.
    unfold U32.add, U32.wrap. rewrite Z.add_mod_idemp_l by done.
    f_equal. lia.
Qed.

(** After [2^32 - 1] fresh schedules the counter is 0. *)
Lemma counter_zero_reachable N (f : Func) :
  1 ≤ N →
  ∃ s, reachable N s ∧ live s = [] ∧ _taskCount s = 0 ∧ _id s = 0%Z.
Proof.
  intros HN.
  destruct (counter_reachable N f (Z.to_nat 4294967295) HN)
    as (s & Hreach & Hlive & Hcount & Hid).
  rewrite Z2Nat.id in Hid by done.
  exists s. split_and!; try done.
Qed.

End Reachable.

(** ** The scenarios of the test suite *)

Section Tests.
Import SchedulerHelper.

Example ScheduleForImmediateCall :
  fired_mocks (run 10 [OpSchedule 0 0 0; OpUpdate 0]) = [0].
Proof. reflexivity. Qed.

Example ScheduleReuseID :
  fired_mocks (run 10 [OpSchedule 0 10 0; OpUpdate 5; OpSchedule 10 10 1;
                       OpUpdate 15]) = [] ∧
  fired_mocks (run 10 [OpSchedule 0 10 0; OpUpdate 5; OpSchedule 10 10 1;
                       OpUpdate 15; OpUpdate 20]) = [1].
Proof. split; reflexivity. Qed.

Example ScheduleForDelayedCompletionOverflowCounter :
  fired_mocks (run 10 [OpSchedule (-10 mod 2 ^ 32) 20 0;
                       OpUpdate (-1 mod 2 ^ 32); OpUpdate 5]) = [] ∧
  fired_mocks (run 10 [OpSchedule (-10 mod 2 ^ 32) 20 0;
                       OpUpdate (-1 mod 2 ^ 32); OpUpdate 5;
                       OpUpdate 10]) = [0].
Proof. split; reflexivity. Qed.

Example ScheduleMultiForDelayedCallSimultaneousCompletion :
  fired_mocks (run 10 [OpSchedule 0 10 0; OpSchedule 0 20 0; OpUpdate 5;
                       OpUpdate 20]) = [0; 1].
Proof. reflexivity. Qed.

Example ScheduleForDelayedCompletionOutOfOrder :
  fired_mocks (run 10 [OpSchedule 0 20 0; OpSchedule 0 10 0; OpUpdate 5;
                       OpUpdate 10]) = [1] ∧
  fired_mocks (run 10 [OpSchedule 0 20 0; OpSchedule 0 10 0; OpUpdate 5;
                       OpUpdate 10; OpUpdate 20]) = [1; 0].
Proof. split; reflexivity. Qed.

Example ScheduleForDelayedCompletionOverflowTasks :
  fired_mocks (run 10 (replicate 20 (OpSchedule 0 20 0) ++
                       [OpUpdate 20; OpUpdate 30])) = seq 0 10.
Proof. reflexivity. Qed.
End Tests.

(** ** Where the claims stop: concrete runs *)

Section Counterexamples.
Import Scenarios.

Local Ltac in_range :=
  unfold U32.modulus; change (2 ^ 32)%Z with 4294967296%Z; lia.

Local Ltac reach :=
  repeat first
    [ apply reachable_init | apply reachable_schedule; [in_range..|] ].

(** With two tasks in the table that are due at tick 0 and handlers that
    schedule their task again with delay 0, every turn of the loop finds
    a due head and a table that the removal did not empty. *)
Lemma rearm_goes_on fuel s :
  wf 10 s → _taskCount s = 2 →
  Forall (λ t, executeTime t = 0%Z ∧ func t = Some tt) (live s) →
  update_loop rearm fuel 0 s = None.
Proof.
  revert s. induction fuel as [|fuel IH]; intros s Hwf Hcount Hall; [done|].
  pose proof Hwf as [Hlen Hmax].
  rewrite (live_head s) in Hall by lia.
  apply Forall_cons in Hall as [[Htime Hfunc] Hall].
  simpl. rewrite Hcount. simpl. rewrite Htime, Hfunc. simpl.
  replace (_taskCount s - 1) with 1 by lia.
  rewrite IH; [done|..].
  - apply scheduleTask_wf. by apply remove_at_wf.
  - destruct (scheduleTask_free 10 0 tt (param (_taskList s !!! 0)) 0 0
                (remove_at 0 s)) as (slot & s' & Hrun & _ & Hcount' & _);
      [by apply remove_at_wf|rewrite after_reuse_zero; simpl; lia|].
    unfold rearm. rewrite Hrun. cbn [snd].
    rewrite Hcount', after_reuse_zero. simpl. lia.
  - destruct (scheduleTask_free 10 0 tt (param (_taskList s !!! 0)) 0 0
                (remove_at 0 s))
      as (slot & s' & Hrun & _ & _ & _ & _ & Hlive' & _);
      [by apply remove_at_wf|rewrite after_reuse_zero; simpl; lia|].
    unfold rearm. rewrite Hrun. cbn [snd].
    rewrite Hlive', after_reuse_zero.
    apply Forall_app. split; [by apply Forall_take|].
    apply Forall_cons_2; [done|by apply Forall_drop].
Qed.

(** C1 does not hold for every state and every handler.  After two
    schedules at tick 0 (delays 0 and 2^31 - 1) the table is sorted, and
    an [update] that samples tick 2^31 calls nothing and changes
    nothing, although the second task is due
    ([signed32(2^31 - (2^31 - 1)) = 1]): the head, 2^31 ticks late,
    compares as not due.  And with two tasks due at tick 0 whose
    handlers schedule their task again with delay 0, [update] at tick 0
    does not return: however many turns the loop is given, it has not
    returned. *)
Lemma update_misses_due_task :
  reachable 10 overdue_head ∧
  times overdue_head = [0%Z; 2147483647%Z] ∧
  table_sorted overdue_head ∧
  update 2147483648 overdue_head = Some ([], overdue_head) ∧
  filter (due 2147483648) (live overdue_head) ≠ [] ∧
  reachable 10 two_due ∧
  times two_due = [0%Z; 0%Z] ∧
  (∀ fuel, update_loop rearm fuel 0 two_due = None).
Proof.
  split_and!.
  - unfold overdue_head. reach.
  - reflexivity.
  - intros i Hi. assert (i = 0) as -> by (vm_compute in Hi; lia).
    by vm_compute.
  - reflexivity.
  - by vm_compute.
  - unfold two_due. reach.
  - reflexivity.
  - intros fuel. apply rearm_goes_on.
    + split; [reflexivity|vm_compute; lia].
    + reflexivity.
    + change (live two_due)
        with [mkTask 0 (Some tt) (Some 0) 1; mkTask 0 (Some tt) (Some 1) 2].
      repeat first [apply Forall_nil_2 | apply Forall_cons_2; [done|]].
Qed.


(** C3 does not hold once the identity counter has wrapped to 0: in a
    reachable state with an empty table, a fresh [scheduleTask] returns 0
    although the table holds fewer than [N] tasks, and the task is in the
    table afterwards. *)
Lemma zero_returned_with_free_slot :
  ∃ s : Sched unit nat,
    reachable 10 s ∧ _taskCount (after_reuse 0 s) = 0 ∧
    (scheduleTask 10 0 tt None 0 0 s).1 = 0%Z ∧
    _taskCount (scheduleTask 10 0 tt None 0 0 s).2 = 1.
Proof.
  destruct (counter_zero_reachable (Param:=nat) 10 tt ltac:(lia))
    as (s & Hreach & Hlive & Hcount & Hid).
  exists s. pose proof (reachable_wf _ _ Hreach) as Hwf.
  destruct (scheduleTask_free 10 0 tt None 0 0 s Hwf)
    as (slot & s' & -> & _ & Hcount' & _).
  { rewrite after_reuse_zero. lia. }
  rewrite after_reuse_zero in *. simpl.
  split_and!; [done..|lia].
Qed.

(** C4 does not hold for every reachable counter value: when the counter
    has wrapped to 0, a fresh [scheduleTask] that finds a free slot
    returns 0 and the live task carries identifier 0. *)
Lemma fresh_id_zero_after_wrap :
  ∃ s : Sched unit nat,
    reachable 10 s ∧ _taskCount s < 10 ∧
    (scheduleTask 10 0 tt None 0 0 s).1 = 0%Z ∧
    ids (scheduleTask 10 0 tt None 0 0 s).2 = [0%Z].
Proof.
  destruct (counter_zero_reachable (Param:=nat) 10 tt ltac:(lia))
    as (s & Hreach & Hlive & Hcount & Hid).
  exists s. pose proof (reachable_wf _ _ Hreach) as Hwf.
  destruct (scheduleTask_free 10 0 tt None 0 0 s Hwf)
    as (slot & s' & -> & _ & _ & _ & _ & Hlive' & _).
  { rewrite after_reuse_zero. lia. }
  rewrite after_reuse_zero, Hlive, take_nil, drop_nil in Hlive'.
  cbn [fst snd]. unfold ids. rewrite Hlive'. simpl.
  unfold assigned_id; simpl. rewrite Hid.
  split_and!; [done|lia|done..].
Qed.


(** C8 does not hold for every state with distinct live identifiers:
    when a live task already carries the value of the counter, the fresh
    schedule returns that identifier, and [unscheduleTask] removes the
    older task, not the new one. *)
Lemma roundtrip_removes_older_task :
  reachable 10 claimed_id ∧
  NoDup (ids claimed_id) ∧ _taskCount claimed_id < 10 ∧
  (scheduleTask 10 0 tt (Some 1) 20 0 claimed_id).1 = 1%Z ∧
  param <$> live claimed_id = [Some 0] ∧
  param <$> live (unscheduleTask
                    (scheduleTask 10 0 tt (Some 1) 20 0 claimed_id).1
                    (scheduleTask 10 0 tt (Some 1) 20 0 claimed_id).2)
    = [Some 1] ∧
  live (unscheduleTask (scheduleTask 10 0 tt (Some 1) 20 0 claimed_id).1
                       (scheduleTask 10 0 tt (Some 1) 20 0 claimed_id).2)
    ≠ live claimed_id.
Proof.
  split_and!.
  - unfold claimed_id. reach.
  - change (ids claimed_id) with [1%Z]. apply NoDup_singleton.
  - vm_compute. lia.
  - reflexivity.
  - reflexivity.
  - reflexivity.
  - by vm_compute.
Qed.

(** C9 does not hold for every state: when two live tasks carry the
    identifier (a schedule with [reuseId = 1] on a fresh scheduler, then
    a schedule that asks for a fresh identifier), the first
    [unscheduleTask 1] removes the first of them and a second
    [unscheduleTask 1] removes the other: the repeated call is not a
    no-op. *)
Lemma repeated_unschedule_removes_another :
  reachable 10 same_id_twice ∧
  ids same_id_twice = [1%Z; 1%Z] ∧
  param <$> live same_id_twice = [Some 0; Some 1] ∧
  param <$> live (unscheduleTask 1 same_id_twice) = [Some 1] ∧
  live (unscheduleTask 1 (unscheduleTask 1 same_id_twice)) = [] ∧
  unscheduleTask 1 (unscheduleTask 1 same_id_twice) ≠
    unscheduleTask 1 same_id_twice.
Proof.
  split_and!.
  - unfold same_id_twice, claimed_id. reach.
  - reflexivity.
  - reflexivity.
  - reflexivity.
  - reflexivity.
  - intros Heq. apply (f_equal _taskCount) in Heq. by vm_compute in Heq.
Qed.
End Counterexamples.

(** ** The theorems at concrete states *)

Section Instances.
Import Scenarios.

Local Ltac absent :=
  let H := fresh in
  intros H;
  repeat (apply elem_of_cons in H as [H|H]; [discriminate H|]);
  by apply elem_of_nil in H.

Local Ltac windowed :=
  repeat first
    [ apply Forall_nil_2 | apply Forall_cons_2; [by vm_compute|] ].

Lemma two_tasks_wf : wf 10 two_tasks.
Proof. split; [reflexivity|vm_compute; lia]. Defined.

Lemma two_tasks_sorted : table_sorted two_tasks.
Proof.
  intros i Hi. assert (i = 0) as -> by (vm_compute in Hi; lia).
  by vm_compute.
Defined.


Lemma full_table_wf : wf 10 full_table.
Proof. split; [reflexivity|vm_compute; lia]. Defined.

Lemma update_dispatches_due_witness :
  wf 10 two_tasks ∧ table_sorted two_tasks ∧
  in_window 0 (10%Z :: times two_tasks) ∧
  ∃ s', update 10 two_tasks = Some (filter (due 10) (live two_tasks), s') ∧
        live s' = filter (λ t, ¬ due 10 t) (live two_tasks) ∧
        live two_tasks = filter (due 10) (live two_tasks) ++ live s' ∧
        _taskCount s' = length (live s') ∧
        _id s' = _id two_tasks.
Proof.
  assert (in_window 0 (10%Z :: times two_tasks)) as Hwin.
  { change (times two_tasks) with [10%Z; 20%Z]. unfold in_window. windowed. }
  split_and!; [apply two_tasks_wf|apply two_tasks_sorted|exact Hwin|].
  destruct (update_dispatches_due 10 10 two_tasks two_tasks_wf)
    as (_ & _ & _ & _ & _ & Hexact).
  exact (Hexact 0%Z two_tasks_sorted Hwin).
Defined.


Lemma scheduleTask_capacity_witness :
  wf 10 full_table ∧
  scheduleTask 10 0 tt None 5 0 full_table =
    (0%Z, after_reuse 0 full_table) ∧
  (scheduleTask 10 0 tt None 5 3 full_table).1 = 3%Z ∧
  _taskCount (scheduleTask 10 0 tt None 5 3 full_table).2 = 10.
Proof.
  split; [apply full_table_wf|].
  destruct (scheduleTask_capacity 10 0 tt None 5 0 full_table full_table_wf)
    as (Hfull & _).
  destruct (scheduleTask_capacity 10 0 tt None 5 3 full_table full_table_wf)
    as (_ & _ & Hreuse).
  split; [apply Hfull; vm_compute; lia|].
  destruct Hreuse as (Hret & Hcount & _).
  - discriminate.
  - assert (ids full_table = Z.of_nat <$> seq 1 10) as -> by (by vm_compute).
    simpl. do 2 apply list_elem_of_further. apply list_elem_of_here.
  - by vm_compute.
  - split; [exact Hret|exact Hcount].
Defined.

Lemma scheduleTask_id_witness :
  wf 10 (init (Func:=unit) (Param:=nat) 10) ∧
  (scheduleTask 10 0 tt (None : option nat) 5 0 (init 10)).1 = 1%Z ∧
  _id (scheduleTask 10 0 tt (None : option nat) 5 0 (init 10)).2 =
    ((1 + 1) mod 2 ^ 32)%Z ∧
  ((scheduleTask 10 0 tt (None : option nat) 5 0 (init 10)).1 ≠ 0%Z ↔
   (0 ≠ 0 ∨ 1 ≠ 0)%Z).
Proof.
  split; [apply init_wf|].
  apply (scheduleTask_id 10 0 tt (None : option nat) 5 0 (init 10)).
  - apply init_wf.
  - simpl. lia.
Defined.

Lemma equal_deadlines_fifo_witness :
  SchedulerHelper.fifo (mkTask 10 (Some tt) (Some 0) 1)
                       (mkTask 10 (Some tt) (Some 1) 2).
Proof.
  apply (proj2 (equal_deadlines_fifo 10)
           [SchedulerHelper.OpSchedule 0 10 0;
            SchedulerHelper.OpSchedule 0 10 0;
            SchedulerHelper.OpUpdate 10] 0 1);
    [reflexivity|reflexivity|lia].
Defined.

Lemma tick_wraparound_witness :
  1 ≤ 10 ∧
  update_loop idle 1 4294967295
              (scheduleTask 10 (2 ^ 32 - 10) tt (None : option nat) 20 0
                            (init 10)).2 =
  Some ([], (scheduleTask 10 (2 ^ 32 - 10) tt None 20 0 (init 10)).2).
Proof.
  split; [lia|].
  destruct (tick_wraparound 10 tt (None : option nat) ltac:(lia))
    as (_ & _ & Hearly & _).
  apply Hearly. lia.
Defined.


Lemma schedule_unschedule_roundtrip_witness :
  wf 10 two_tasks ∧ _taskCount two_tasks < 10 ∧
  (_id two_tasks ∉ ids two_tasks) ∧
  live (unscheduleTask (scheduleTask 10 0 tt None 15 0 two_tasks).1
                       (scheduleTask 10 0 tt None 15 0 two_tasks).2) =
    live two_tasks.
Proof.
  assert (_taskCount two_tasks < 10) as Hfree by (vm_compute; lia).
  assert (_id two_tasks ∉ ids two_tasks) as Hnot.
  { change (ids two_tasks) with [1%Z; 2%Z]. change (_id two_tasks) with 3%Z.
    absent. }
  split_and!; [apply two_tasks_wf|exact Hfree|exact Hnot|].
  apply (schedule_unschedule_roundtrip 10 0 tt None 15 two_tasks
           two_tasks_wf Hfree Hnot).
Defined.

Lemma unscheduleTask_absent_witness :
  wf 10 two_tasks ∧ (7%Z ∉ ids two_tasks) ∧
  unscheduleTask 7 two_tasks = two_tasks.
Proof.
  assert (7%Z ∉ ids two_tasks) as Hnot.
  { change (ids two_tasks) with [1%Z; 2%Z]. absent. }
  split_and!; [apply two_tasks_wf|exact Hnot|].
  exact (proj1 (unscheduleTask_absent 10 7 two_tasks two_tasks_wf) Hnot).
Defined.

Lemma reuse_without_match_witness :
  wf 10 two_tasks ∧ 7%Z ≠ 0%Z ∧
  _id (scheduleTask 10 0 tt None 15 7 two_tasks).2 = _id two_tasks.
Proof.
  assert (7%Z ≠ 0%Z) as Hreuse by discriminate.
  split_and!; [apply two_tasks_wf|exact Hreuse|].
  exact (proj1 (proj2 (reuse_without_match 10 0 tt None 15 7 two_tasks
                         two_tasks_wf Hreuse))).
Defined.
End Instances.

(** * Further properties of the code *)

(** ** Calls into the CPU facade *)

Section FacadeCalls.
Context {Func Param : Type}.
Implicit Types (l : list (Task Func Param)) (s : Sched Func Param).
Implicit Types (t : Task Func Param).

Lemma scheduleTask_cpu_value N now f p delay reuseId s :
  (scheduleTask_cpu N now f p delay reuseId s).2 =
  scheduleTask N now f p delay reuseId s.
Proof.
  unfold scheduleTask_cpu, scheduleTask; simpl.
  destruct (_ <=? _); [done|].
  destruct (insert_shift _ _ _). by destruct (reuseId =? 0)%Z.
Qed.

Lemma unscheduleTask_cpu_value taskId s :
  (unscheduleTask_cpu taskId s).2 = unscheduleTask taskId s.
Proof. done. Qed.

(** Forgetting the calls gives the loop of [update] for the handlers'
    effect on the scheduler. *)
Lemma update_loop_cpu_value handler fuel now s :
  snd <$> update_loop_cpu handler fuel now s =
  update_loop (λ f p s0, (handler f p s0).2) fuel now s.
Proof.
  revert s. induction fuel as [|fuel IH]; intros s; simpl; [done|].
  destruct (_taskCount s =? 0); [done|].
  destruct (before now _); [done|].
  destruct (_taskCount s - 1 =? 0); [done|].
  rewrite <-IH.
  by destruct (update_loop_cpu handler fuel now _) as [[calls [fired s3]]|].
Qed.

Lemma well_bracketed_app inside (a b : list (Event Func Param)) :
  well_bracketed inside a = true →
  well_bracketed inside (a ++ b) = well_bracketed false b.
Proof.
  revert inside. induction a as [|e a IH]; intros inside; simpl.
  { by destruct inside. }
  destruct e, inside; simpl; try done; apply IH.
Qed.

(** X1.  [scheduleTask] reads the tick, enters a critical section and
    leaves it, in this order and nothing else, whether it inserts the task
    or returns 0 for a full table; [unscheduleTask] enters and leaves one
    critical section whether or not it finds the identifier.  Neither
    calls a handler or [sleep]. *)
Theorem schedule_unschedule_calls N :
  (∀ now f p delay reuseId s,
     (scheduleTask_cpu N now f p delay reuseId s).1 =
       [GetSystemTick; EnterCriticalSection; LeaveCriticalSection] ∧
     (scheduleTask_cpu N now f p delay reuseId s).2 =
       scheduleTask N now f p delay reuseId s) ∧
  (∀ taskId s,
     (unscheduleTask_cpu taskId s).1 =
       [EnterCriticalSection; LeaveCriticalSection] ∧
     (unscheduleTask_cpu taskId s).2 = unscheduleTask (Func:=Func) (Param:=Param) taskId s).
Proof.
  split.
  - intros now f p delay reuseId s. split; [|apply scheduleTask_cpu_value].
    unfold scheduleTask_cpu; simpl.
    destruct (_ <=? _); [done|].
    destruct (insert_shift _ _ _). by destruct (reuseId =? 0)%Z.
  - intros taskId s. split; [|done]. reflexivity.
Qed.

Lemma update_loop_cpu_bracketed handler fuel now s m :
  (∀ f p s0, well_bracketed false (handler f p s0).1 = true) →
  update_loop_cpu handler fuel now s = Some m →
  well_bracketed false m.1 = true.
Proof.
  intros Hhandler. revert s m.
  induction fuel as [|fuel IH]; intros s m; simpl; [done|].
  destruct (_taskCount s =? 0); [by intros [= <-]|].
  destruct (before now _); [by intros [= <-]|].
  destruct (_taskCount s - 1 =? 0).
  { intros [= <-]. simpl. rewrite app_nil_r. apply Hhandler. }
  destruct (update_loop_cpu handler fuel now _) as [rest|] eqn:Hrest; [|done].
  intros [= <-]. simpl.
  rewrite well_bracketed_app by apply Hhandler. by eapply IH.
Qed.

(** X2.  Whatever the handlers do to the scheduler, if the calls of every
    handler respect the discipline of critical sections, so do the calls
    of [update]: the tick is read first and outside any section, sections
    are entered and left alternately and never nested, every handler is
    called after the section that removed its task was left, and no
    section is open when [update] returns. *)
Theorem update_calls_well_bracketed handler fuel now s m :
  (∀ f p s0, well_bracketed false (handler f p s0).1 = true) →
  update_cpu handler fuel now s = Some m →
  well_bracketed false m.1 = true ∧
  head m.1 = Some GetSystemTick ∧
  update_loop (λ f p s0, (handler f p s0).2) fuel now s = Some m.2.
Proof.
  intros Hhandler. unfold update_cpu.
  destruct (update_loop_cpu handler fuel now s) as [m0|] eqn:Hloop; [|done].
  intros [= <-]. split_and!; simpl.
  - by eapply update_loop_cpu_bracketed.
  - done.
  - by rewrite <-update_loop_cpu_value, Hloop.
Qed.

Lemma update_loop_cpu_idle N fuel now s :
  wf N s → _taskCount s < fuel →
  ∃ s', update_loop_cpu idle_cpu fuel now s =
          Some (flat_map dispatch_calls (due_prefix now (live s)) ++
                final_calls now (live s),
                (due_prefix now (live s), s')) ∧
        wf N s' ∧ live s' = due_rest now (live s).
Proof.
  revert s. induction fuel as [|fuel IH]; intros s Hwf Hfuel; [lia|].
  simpl. destruct (Nat.eqb_spec (_taskCount s) 0) as [Hzero|Hpos].
  { exists s. unfold live. rewrite Hzero, take_0. done. }
  destruct Hwf as [Hlen Hcount].
  rewrite (live_head s) by lia. unfold final_calls. simpl.
  destruct (before now (executeTime (_taskList s !!! 0))) eqn:Hcmp.
  { exists s. rewrite <-live_head by lia. done. }
  destruct (IH (remove_at 0 s)) as (s' & Hrun & Hwf' & Hlive);
    [by apply remove_at_wf|simpl; lia|].
  destruct (Nat.eqb_spec (_taskCount s - 1) 0) as [Hlast|Hmore].
  - assert (live (remove_at 0 s) = []) as Hnil.
    { unfold live; simpl. rewrite Hlast. by rewrite take_0. }
    exists (remove_at 0 s). rewrite Hnil. simpl.
    split_and!; [done|by apply remove_at_wf|done].
  - unfold idle_cpu at 2; simpl. rewrite Hrun. simpl.
    exists s'. split_and!; [|done..].
    do 2 f_equal. unfold dispatch_calls at 1; simpl. do 3 f_equal.
    unfold final_calls.
    assert (live (remove_at 0 s) ≠ []) as Hne.
    { intros Hnil. apply (f_equal length) in Hnil.
      rewrite live_length in Hnil by (simpl; rewrite shift_left_length; lia).
      simpl in Hnil. lia. }
    by destruct (live (remove_at 0 s)).
Qed.

(** X3.  With handlers that make no call, [update] on a well-formed
    state reads the tick, then for each task it calls - the longest
    prefix of due live tasks, in table order - enters and leaves a
    critical section and calls the handler; it ends with one more
    critical section that finds nothing to call, except when the last
    live task was just called: then it returns without entering again.
    So it enters as many critical sections as it calls handlers, plus at
    most one. *)
Theorem update_calls_idle N now s :
  wf N s →
  ∃ s',
    update_cpu idle_cpu (S (_taskCount s)) now s =
      Some (GetSystemTick ::
            flat_map dispatch_calls (due_prefix now (live s)) ++
            final_calls now (live s),
            (due_prefix now (live s), s')) ∧
    live s' = due_rest now (live s) ∧
    (final_calls now (live s) = [] ↔
       live s ≠ [] ∧ due_rest now (live s) = []).
Proof.
  intros Hwf.
  destruct (update_loop_cpu_idle N (S (_taskCount s)) now s Hwf ltac:(lia))
    as (s' & Hrun & _ & Hlive).
  exists s'. unfold update_cpu. rewrite Hrun. split_and!; [done..|].
  unfold final_calls.
  destruct (live s) as [|t l].
  { split; [discriminate|]. by intros [Hne _]. }
  destruct (due_rest now (t :: l)); split; try done.
  by intros [_ Hnil].
Qed.
End FacadeCalls.

(** ** Removal, insertion and replacement *)

Section TableOperations.
Context {Func Param : Type}.
Implicit Types (l : list (Task Func Param)) (s : Sched Func Param).
Implicit Types (t : Task Func Param).

Lemma remove_first_split taskId l :
  taskId ∈ id <$> l →
  ∃ l1 t l2, l = l1 ++ t :: l2 ∧ id t = taskId ∧ (taskId ∉ id <$> l1) ∧
             remove_first taskId l = l1 ++ l2.
Proof.
  induction l as [|x l IH]; simpl.
  { by intros ?%elem_of_nil. }
  intros Hin. destruct (Z.eqb_spec (id x) taskId) as [Heq|Hne].
  - exists [], x, l. split_and!; try done. apply not_elem_of_nil.
  - apply elem_of_cons in Hin as [Heq|Hin]; [congruence|].
    destruct (IH Hin) as (l1 & t & l2 & -> & Hid & Hnot & Hrem).
    exists (x :: l1), t, l2. rewrite Hrem. split_and!; try done.
    rewrite fmap_cons. apply not_elem_of_cons. done.
Qed.

(** X4.  [unscheduleTask] of an identifier that a live task carries
    removes the first live task with that identifier and no other: the
    tasks before and behind it keep their order, and [_taskCount] drops by
    one. *)
Theorem unscheduleTask_present N taskId s :
  wf N s → taskId ∈ ids s →
  ∃ l1 t l2,
    live s = l1 ++ t :: l2 ∧ id t = taskId ∧ (taskId ∉ id <$> l1) ∧
    live (unscheduleTask taskId s) = l1 ++ l2 ∧
    S (_taskCount (unscheduleTask taskId s)) = _taskCount s ∧
    wf N (unscheduleTask taskId s).
Proof.
  intros Hwf Hin. pose proof Hwf as [Hlen Hcount].
  destruct (remove_first_split taskId (live s) Hin)
    as (l1 & t & l2 & Hlive & Hid & Hnot & Hrem).
  exists l1, t, l2. unfold unscheduleTask.
  rewrite live_remove_id, remove_id_count by lia.
  rewrite Hrem. split_and!; try done.
  - rewrite <-(live_length s) by lia. rewrite Hlive, !length_app. simpl. lia.
  - by apply remove_id_wf.
Qed.

(** X5.  The bounds of the array are kept: from a state with
    [MaxTaskCount] slots and [_taskCount <= MaxTaskCount], every
    operation returns such a state - [update] with any handlers that do -
    so [_taskCount] never exceeds the capacity and the live slots are
    slots of the array. *)
Theorem table_bounds_kept N s :
  wf N s →
  (∀ now f p delay reuseId, wf N (scheduleTask N now f p delay reuseId s).2) ∧
  (∀ taskId, wf N (unscheduleTask taskId s)) ∧
  (∀ invoke fuel now fired s',
     (∀ f p s0, wf N s0 → wf N (invoke f p s0)) →
     update_loop invoke fuel now s = Some (fired, s') → wf N s') ∧
  length (live s) = _taskCount s.
Proof.
  intros Hwf. split_and!.
  - intros. by apply scheduleTask_wf.
  - intros. by apply remove_id_wf.
  - intros invoke fuel now fired s' Hinvoke Hrun.
    eapply (update_loop_invariant (wf N)); [|exact Hinvoke|done|exact Hrun].
    intros s0 Hwf0 _. by apply remove_at_wf.
  - destruct Hwf. apply live_length. lia.
Qed.

(** X6.  A fresh [scheduleTask] that finds a free slot keeps every live
    task, in the same relative order, and adds exactly the new task, with
    the wrapped target tick, the handler, the context and the value of the
    identity counter. *)
Theorem fresh_schedule_keeps_tasks N now f p delay s :
  wf N s → _taskCount s < N →
  live s `sublist_of` live (scheduleTask N now f p delay 0 s).2 ∧
  live (scheduleTask N now f p delay 0 s).2 ≡ₚ
    mkTask (U32.add now delay) (Some f) p (_id s) :: live s ∧
  _taskCount (scheduleTask N now f p delay 0 s).2 = S (_taskCount s).
Proof.
  intros Hwf Hfree.
  destruct (scheduleTask_free N now f p delay 0 s Hwf Hfree)
    as (slot & s' & -> & _ & Hcount & _ & _ & Hlive & _).
  rewrite after_reuse_zero in *. simpl. rewrite Hlive.
  change (assigned_id 0 s) with (_id s). split_and!; [| |done].
  - rewrite <-(take_drop slot (live s)) at 1.
    apply sublist_app; [done|]. by apply sublist_cons.
  - rewrite <-Permutation_middle. by rewrite take_drop.
Qed.

(** X7.  [scheduleTask] with a non-zero [reuseId] that a live task
    carries replaces that task: it returns [reuseId], [_taskCount] is what
    it was - so this never fails for lack of space - the first live task
    with the identifier is gone, the others are kept, and the new task
    carries the identifier.  With distinct live identifiers they are
    distinct afterwards. *)
Theorem reuse_replaces N now f p delay reuseId s :
  wf N s → reuseId ≠ 0%Z → reuseId ∈ ids s →
  (scheduleTask N now f p delay reuseId s).1 = reuseId ∧
  _taskCount (scheduleTask N now f p delay reuseId s).2 = _taskCount s ∧
  (∃ l1 old l2,
     live s = l1 ++ old :: l2 ∧ id old = reuseId ∧ (reuseId ∉ id <$> l1) ∧
     live (scheduleTask N now f p delay reuseId s).2 ≡ₚ
       mkTask (U32.add now delay) (Some f) p reuseId :: l1 ++ l2) ∧
  (NoDup (ids s) → NoDup (ids (scheduleTask N now f p delay reuseId s).2)).
Proof.
  intros Hwf Hreuse Hin. pose proof Hwf as [Hlen Hcount].
  destruct (remove_first_split reuseId (live s) Hin)
    as (l1 & old & l2 & Hlive & Hid & Hnot & Hrem).
  pose proof (after_reuse_live N reuseId s Hwf) as Hlive1.
  rewrite (proj2 (Z.eqb_neq _ _) Hreuse) in Hlive1.
  assert (S (_taskCount (after_reuse reuseId s)) = _taskCount s) as Hcount1.
  { unfold after_reuse. rewrite (proj2 (Z.eqb_neq _ _) Hreuse).
    rewrite remove_id_count by lia.
    rewrite <-(live_length s) by lia. by apply remove_first_length. }
  destruct (scheduleTask_free N now f p delay reuseId s Hwf ltac:(lia))
    as (slot & s' & -> & _ & Hcount' & _ & _ & Hlive' & _).
  simpl. unfold assigned_id in *.
  rewrite (proj2 (Z.eqb_neq _ _) Hreuse) in *.
  assert (live s' ≡ₚ mkTask (U32.add now delay) (Some f) p reuseId ::
                     remove_first reuseId (live s)) as Hperm.
  { rewrite Hlive', Hlive1, <-Permutation_middle. by rewrite take_drop. }
  split_and!; [done|lia| |].
  - exists l1, old, l2. split_and!; try done. by rewrite Hperm, Hrem.
  - intros Hnodup. unfold ids. rewrite Hperm, fmap_cons. simpl.
    apply NoDup_cons. split; [by apply remove_first_gone|].
    eapply sublist_NoDup; [exact Hnodup|].
    apply fmap_sublist, remove_first_sublist.
Qed.
End TableOperations.

(** ** Filling the table *)

Section Capacity.
Context {Func Param : Type}.
Implicit Types (l : list (Task Func Param)) (s : Sched Func Param).

Lemma schedule_all_from N (reqs : list (Z * Func * option Param * Z)) s :
  wf N s → (0 ≤ _id s < U32.modulus)%Z →
  (schedule_all N reqs s).1 =
    ((λ k, U32.wrap (_id s + Z.of_nat k)) <$>
       seq 0 (length reqs `min` (N - _taskCount s))) ++
    replicate (length reqs - (N - _taskCount s)) 0%Z ∧
  _taskCount (schedule_all N reqs s).2 =
    (_taskCount s + length reqs) `min` N ∧
  _id (schedule_all N reqs s).2 =
    U32.wrap (_id s + Z.of_nat (length reqs `min` (N - _taskCount s))) ∧
  wf N (schedule_all N reqs s).2.
Proof.
  revert s. induction reqs as [|[[[now f] p] delay] reqs IH]; intros s Hwf Hid.
  { simpl. rewrite Z.add_0_r, wrap_small by done.
    destruct Hwf. split_and!; try done. lia. }
  cbn [schedule_all fst snd length].
  destruct (decide (N ≤ _taskCount s)) as [Hfull|Hfree].
  - rewrite scheduleTask_full by (by rewrite after_reuse_zero).
    rewrite after_reuse_zero. cbn [fst snd].
    destruct (IH s Hwf Hid) as (Hids & Hcount & Hnext & Hwf').
    rewrite Hids, Hcount, Hnext.
    replace (N - _taskCount s) with 0 by lia.
    rewrite !Nat.min_0_r, !Nat.sub_0_r. simpl.
    destruct Hwf. split_and!; try done. lia.
  - destruct (scheduleTask_free N now f p delay 0 s Hwf)
      as (slot & s1 & -> & Hwf1 & Hcount1 & Hid1 & _).
    { rewrite after_reuse_zero. lia. }
    rewrite after_reuse_zero in Hcount1. cbn [fst snd].
    change (assigned_id 0 s) with (_id s).
    change (next_id 0 s) with (U32.add (_id s) 1) in Hid1.
    assert (0 ≤ _id s1 < U32.modulus)%Z as Hrange1.
    { rewrite Hid1. apply wrap_range. }
    destruct (IH s1 Hwf1 Hrange1) as (Hids & Hcount & Hnext & Hwf').
    rewrite Hids, Hcount, Hnext, Hcount1, Hid1.
    assert (∀ k, U32.wrap (U32.add (_id s) 1 + Z.of_nat k) =
                 U32.wrap (_id s + Z.of_nat (S k))) as Hshift.
    { intros k. unfold U32.add, U32.wrap.
      rewrite Z.add_mod_idemp_l by done. f_equal. lia. }
    replace (S (length reqs) `min` (N - _taskCount s))
      with (S (length reqs `min` (N - S (_taskCount s)))) by lia.
    replace (S (length reqs) - (N - _taskCount s))
      with (length reqs - (N - S (_taskCount s))) by lia.
    split_and!; [|lia| |done].
    + cbn [seq fmap list_fmap]. rewrite Z.add_0_r, wrap_small by done.
      simpl. f_equal. f_equal.
      rewrite <-fmap_S_seq, <-list_fmap_compose.
      apply list_fmap_ext. intros i k _. apply Hshift.
    + apply Hshift.
Qed.

(** X8.  On a fresh scheduler with capacity [N] (below [2^32 - 1]), a
    series of fresh [scheduleTask] calls, whatever their ticks, handlers
    and delays, returns the identifiers 1, 2, ..., [N] for the first [N]
    calls and 0 for every later call; the table then holds [N] tasks, or
    all of them when there were fewer. *)
Theorem schedule_all_fills N (reqs : list (Z * Func * option Param * Z)) :
  (Z.of_nat N + 1 < U32.modulus)%Z →
  (schedule_all N reqs (init N)).1 =
    (Z.of_nat <$> seq 1 (length reqs `min` N)) ++
    replicate (length reqs - N) 0%Z ∧
  _taskCount (schedule_all N reqs (init N)).2 = length reqs `min` N ∧
  _id (schedule_all N reqs (init N)).2 =
    (1 + Z.of_nat (length reqs `min` N))%Z.
Proof.
  intros HN.
  destruct (schedule_all_from N reqs (init N) (init_wf N))
    as (Hids & Hcount & Hnext & _).
  { simpl. unfold U32.modulus. change (2 ^ 32)%Z with 4294967296%Z. lia. }
  rewrite Hids, Hcount, Hnext. simpl. rewrite Nat.sub_0_r.
  split_and!; [|done|apply wrap_small; lia].
  f_equal. rewrite <-fmap_S_seq, <-list_fmap_compose.
  apply list_fmap_ext. intros i k Hk. simpl.
  apply lookup_seq in Hk as [-> Hk].
  rewrite wrap_small by lia. lia.
Qed.
End Capacity.

(** ** What [update] leaves behind *)

Section Passes.
Context {Func Param : Type}.
Implicit Types (l : list (Task Func Param)) (s : Sched Func Param).
Implicit Types (t : Task Func Param).

Lemma due_rest_head now l t r :
  due_rest now l = t :: r → before now (executeTime t) = true.
Proof.
  induction l as [|x l IH]; simpl; [done|].
  destruct (before now (executeTime x)) eqn:Hcmp; [|done].
  by intros [= <- _].
Qed.

(** X9.  A task is called once: after an [update] (with handlers that
    leave the scheduler alone), a second [update] that samples the same
    tick calls no handler and leaves the state as it is. *)
Theorem update_fires_once N now s fired s' :
  wf N s → update now s = Some (fired, s') →
  update now s' = Some ([], s').
Proof.
  intros Hwf Hrun.
  destruct (update_idle N now s Hwf) as (s0 & Hrun0 & [Hlen Hcount] & Hlive & _).
  rewrite Hrun0 in Hrun. injection Hrun as _ <-.
  unfold update. simpl.
  destruct (Nat.eqb_spec (_taskCount s0) 0) as [|Hpos]; [done|].
  rewrite (live_head s0) in Hlive by lia. symmetry in Hlive.
  by rewrite (due_rest_head _ _ _ _ Hlive).
Qed.

(** X10.  The early return.  When the task that [update] removes is the
    last live task, [update] calls its handler and returns the state the
    handler left, without looking at the table again, whatever the
    handler does.  So a task that this handler schedules is in the table
    when [update] returns and has not been called - also with delay 0,
    when it is due at the sampled tick. *)
Theorem update_early_return N now s t :
  wf N s → live s = [t] → due now t →
  (∀ invoke fuel,
     update_loop invoke (S fuel) now s =
       Some ([t], invoke (func t) (param t) (remove_at 0 s))) ∧
  (∀ g q delay fuel,
     ∃ s',
       update_loop (λ _ _ s0, (scheduleTask N now g q delay 0 s0).2)
                   (S fuel) now s = Some ([t], s') ∧
       live s' = [mkTask (U32.add now delay) (Some g) q (_id s)] ∧
       _taskCount s' = 1) ∧
  (∀ (g : Func) (q : option Param),
     due now (mkTask (U32.add now 0) (Some g) q (_id s))).
Proof.
  intros Hwf Hlive Hdue.
  assert (∀ invoke fuel,
            update_loop invoke (S fuel) now s =
              Some ([t], invoke (func t) (param t) (remove_at 0 s)))
    as Hreturn.
  { intros invoke fuel. by apply (update_loop_step N invoke fuel now s Hwf). }
  split_and!.
  - exact Hreturn.
  - intros g q delay fuel. eexists. split; [apply Hreturn|].
    pose proof Hwf as [Hlen Hcount].
    assert (_taskCount s = 1) as Hone.
    { rewrite <-(live_length s) by lia. by rewrite Hlive. }
    assert (live (remove_at 0 s) = []) as Hnone.
    { unfold live. simpl. rewrite Hone. done. }
    destruct (scheduleTask_free N now g q delay 0 (remove_at 0 s))
      as (slot & s' & -> & _ & Hcount' & _ & _ & Hlive' & _);
      [by apply remove_at_wf|rewrite after_reuse_zero; simpl; lia|].
    rewrite after_reuse_zero in *. cbn [snd].
    rewrite Hnone, take_nil, drop_nil in Hlive'.
    split; [exact Hlive'|]. rewrite Hcount'. simpl. lia.
  - intros g q. unfold due. cbn [executeTime].
    unfold U32.signed, U32.sub, U32.add, U32.wrap, U32.half, U32.modulus.
    change (2 ^ 32)%Z with 4294967296%Z in *.
    change (2 ^ 31)%Z with 2147483648%Z in *.
    destruct (Z.ltb_spec
                (((now - (now + 0) mod 4294967296) mod 4294967296)
                   mod 4294967296) 2147483648);
      Z.div_mod_to_equations; lia.
Qed.
End Passes.

(** ** When a single task is called *)

Section Timing.
Context {Func Param : Type}.
Implicit Types (l : list (Task Func Param)) (s : Sched Func Param).

(** Before the deadline, and up to 2^31 - 1 ticks after it. *)
Lemma before_deadline now delay k :
  (0 ≤ delay < U32.half)%Z →
  ((0 ≤ k < delay)%Z →
     before (U32.wrap (now + k)) (U32.add now delay) = true) ∧
  ((delay ≤ k < delay + U32.half)%Z →
     before (U32.wrap (now + k)) (U32.add now delay) = false).
Proof.
  intros Hdelay. unfold before.
  unfold U32.signed, U32.add, U32.sub, U32.wrap, U32.half, U32.modulus in *.
  change (2 ^ 32)%Z with 4294967296%Z in *.
  change (2 ^ 31)%Z with 2147483648%Z in *.
  split; intros Hk; [apply Z.ltb_lt|apply Z.ltb_ge];
    destruct (Z.ltb_spec
                ((((now + k) mod 4294967296 - (now + delay) mod 4294967296)
                    mod 4294967296) mod 4294967296) 2147483648);
    Z.div_mod_to_equations; lia.
Qed.

(** A delay above 2^31 puts the target behind the tick. *)
Lemma before_long_delay now delay :
  (U32.half < delay < U32.modulus)%Z →
  before now (U32.add now delay) = false.
Proof.
  intros Hdelay. unfold before. apply Z.ltb_ge.
  unfold U32.signed, U32.add, U32.sub, U32.wrap, U32.half, U32.modulus in *.
  change (2 ^ 32)%Z with 4294967296%Z in *.
  change (2 ^ 31)%Z with 2147483648%Z in *.
  destruct (Z.ltb_spec
              (((now - (now + delay) mod 4294967296)
                  mod 4294967296) mod 4294967296) 2147483648);
    Z.div_mod_to_equations; lia.
Qed.

Lemma first_task N now (f : Func) (p : option Param) delay :
  1 ≤ N →
  live (scheduleTask N now f p delay 0 (init N)).2 =
    [mkTask (U32.add now delay) (Some f) p 1] ∧
  wf N (scheduleTask N now f p delay 0 (init N)).2.
Proof.
  intros HN.
  destruct (scheduleTask_free N now f p delay 0 (init N) (init_wf N))
    as (slot & s' & -> & Hwf' & _ & _ & _ & Hlive & _).
  { simpl. lia. }
  cbn [fst snd].
  rewrite after_reuse_zero, init_live, take_nil, drop_nil in Hlive.
  split; [exact Hlive|exact Hwf'].
Qed.

(** X12.  The signed comparison tolerates the wrap of the tick counter
    at any tick: a task scheduled alone at tick [now] with a delay below
    2^31 is not called by an [update] that samples a tick less than
    [delay] ticks after [now], and is called by an [update] that samples
    a tick from [delay] up to [delay + 2^31 - 1] ticks after [now] (ticks
    counted modulo 2^32), whatever the handler does. *)
Theorem single_task_timing N now (f : Func) (p : option Param) delay k
    invoke fuel :
  1 ≤ N → (0 ≤ delay < U32.half)%Z →
  ((0 ≤ k < delay)%Z →
     update_loop invoke (S fuel) (U32.wrap (now + k))
                 (scheduleTask N now f p delay 0 (init N)).2 =
     Some ([], (scheduleTask N now f p delay 0 (init N)).2)) ∧
  ((delay ≤ k < delay + U32.half)%Z →
     ∃ s', update_loop invoke (S fuel) (U32.wrap (now + k))
                       (scheduleTask N now f p delay 0 (init N)).2 =
           Some ([mkTask (U32.add now delay) (Some f) p 1], s')).
Proof.
  intros HN Hdelay.
  destruct (first_task N now f p delay HN) as [Hlive [Hlen Hcount]].
  destruct (before_deadline now delay k Hdelay) as [Hearly Hlate].
  assert (_taskCount (scheduleTask N now f p delay 0 (init N)).2 ≤
          length (_taskList (scheduleTask N now f p delay 0 (init N)).2))
    as Hle by lia.
  split; intros Hk.
  - rewrite (update_loop_single invoke fuel _ _ _ Hle Hlive).
    cbn [executeTime]. by rewrite Hearly.
  - eexists.
    rewrite (update_loop_single invoke fuel _ _ _ Hle Hlive).
    cbn [executeTime]. by rewrite Hlate.
Qed.

(** X13.  A delay above 2^31 is not a long delay: the target tick
    compares as already reached, and the task, scheduled alone, is called
    by an [update] that samples the very tick at which it was
    scheduled. *)
Theorem long_delay_fires_at_once N now (f : Func) (p : option Param) delay
    invoke fuel :
  1 ≤ N → (U32.half < delay < U32.modulus)%Z →
  ∃ s', update_loop invoke (S fuel) now
                    (scheduleTask N now f p delay 0 (init N)).2 =
        Some ([mkTask (U32.add now delay) (Some f) p 1], s').
Proof.
  intros HN Hdelay.
  destruct (first_task N now f p delay HN) as [Hlive [Hlen Hcount]].
  assert (_taskCount (scheduleTask N now f p delay 0 (init N)).2 ≤
          length (_taskList (scheduleTask N now f p delay 0 (init N)).2))
    as Hle by lia.
  eexists.
  rewrite (update_loop_single invoke fuel _ _ _ Hle Hlive).
  cbn [executeTime]. by rewrite before_long_delay.
Qed.
End Timing.

(** ** Where a new task is put *)

Section Position.
Context {Func Param : Type}.
Implicit Types (l : list (Task Func Param)) (s : Sched Func Param).
Implicit Types (t : Task Func Param).

(** In a sorted table within a window, the tasks in front of the slot
    that the insertion loop chooses are all due at the target tick. *)
Lemma insert_front_due base target slot l :
  slot ≤ length l →
  in_window base (target :: (executeTime <$> l)) →
  adjacent_sorted l →
  Forall (λ t, before target (executeTime t) = false)
         (drop (slot - 1) (take slot l)) →
  Forall (due target) (take slot l).
Proof.
  intros Hslot Hwin Hs Hbelow.
  apply Forall_cons in Hwin as [Htarget Hwin].
  assert (∀ t, t ∈ l → (U32.offset base (executeTime t) < U32.half)%Z) as Hin.
  { unfold in_window in Hwin. by rewrite Forall_fmap, Forall_forall in Hwin. }
  apply (adjacent_sorted_window base) in Hs; [|done].
  destruct slot as [|i]; [by rewrite take_0|].
  destruct (lookup_lt_is_Some_2 l i) as [y Hy]; [lia|].
  rewrite <-(take_drop (S i) l) in Hs.
  apply StronglySorted_app_1_l in Hs.
  rewrite (take_S_r l i y Hy) in Hs, Hbelow |- *.
  replace (S i - 1) with i in Hbelow by lia.
  rewrite drop_app_length' in Hbelow by (rewrite length_take; lia).
  rewrite Forall_singleton in Hbelow.
  assert (y ∈ l) as Hyl by (by eapply list_elem_of_lookup_2).
  assert (∀ x, x ∈ l → offset_le base x y → due target x) as Hdue.
  { intros x Hx Hxy. apply before_due.
    destruct (before target (executeTime x)) eqn:Hcmp; [|done].
    apply (before_window base) in Hcmp; [|done|by apply Hin].
    assert (before target (executeTime y) = true) as Hcontra.
    { apply (before_window base); [done|by apply Hin|].
      unfold offset_le in Hxy. lia. }
    congruence. }
  apply Forall_app. split.
  - apply Forall_forall. intros x Hx. apply Hdue.
    + apply elem_of_take in Hx as (j & Hj & _). by eapply list_elem_of_lookup_2.
    + eapply StronglySorted_app_1_elem_of; [exact Hs|done|].
      by apply list_elem_of_singleton.
  - apply Forall_singleton. apply Hdue; [done|]. unfold offset_le. lia.
Qed.

(** X14.  In a sorted table whose execute times lie with the target tick
    within one window of 2^31 ticks, a fresh [scheduleTask] that finds a
    free slot puts the new task behind every live task whose execute time
    is not after the target and in front of every live task whose execute
    time is after it; the other tasks keep their places. *)
Theorem schedule_position N base now f p delay s :
  wf N s → _taskCount s < N → table_sorted s →
  in_window base (U32.add now delay :: times s) →
  live (scheduleTask N now f p delay 0 s).2 =
    filter (due (U32.add now delay)) (live s) ++
    mkTask (U32.add now delay) (Some f) p (_id s) ::
    filter (λ t, ¬ due (U32.add now delay) t) (live s).
Proof.
  intros Hwf Hfree Hsorted Hwin. pose proof Hwf as [Hlen Hcount].
  apply table_sorted_live in Hsorted; [|lia].
  destruct (scheduleTask_free N now f p delay 0 s Hwf Hfree)
    as (slot & s' & -> & _ & _ & _ & Hslot & Hlive & Hafter & Hbelow).
  rewrite after_reuse_zero in *. simpl. rewrite Hlive.
  change (assigned_id 0 s) with (_id s).
  assert (Forall (due (U32.add now delay)) (take slot (live s))) as Hfront.
  { apply (insert_front_due base); try done. rewrite live_length; lia. }
  assert (Forall (λ t, ¬ due (U32.add now delay) t) (drop slot (live s)))
    as Hback.
  { eapply Forall_impl; [exact Hafter|]. simpl.
    intros t Hcmp Hdue%before_due. congruence. }
  rewrite <-(take_drop slot (live s)) at 3 4.
  rewrite !filter_app.
  rewrite (filter_all _ _ Hfront), (filter_none _ _ Hback), app_nil_r.
  rewrite (filter_all _ _ Hback).
  rewrite (filter_none (λ t, ¬ due (U32.add now delay) t)), app_nil_l; [done|].
  eapply Forall_impl; [exact Hfront|]. simpl. intros t Hdue Hnot. done.
Qed.
End Position.

(** ** The calls that the tests expect *)

Section ExpectedCalls.
Import Scenarios.

(** ScheduleMultiForDelayedCallSimultaneousCompletion, the [update] at
    tick 20: both handlers are called and no critical section follows the
    second. *)
Example simultaneous_completion_calls :
  fst <$> update_cpu idle_cpu 3 20 two_tasks =
  Some [GetSystemTick;
        EnterCriticalSection; LeaveCriticalSection;
        Invoke (Some tt) (Some 0);
        EnterCriticalSection; LeaveCriticalSection;
        Invoke (Some tt) (Some 1)].
Proof. reflexivity. Qed.

(** ScheduleMultiForDelayedCallSerialCompletion, the [update] at tick 10:
    one handler is called, and a second critical section finds the other
    task not due. *)
Example serial_completion_calls :
  fst <$> update_cpu idle_cpu 3 10 two_tasks =
  Some [GetSystemTick;
        EnterCriticalSection; LeaveCriticalSection;
        Invoke (Some tt) (Some 0);
        EnterCriticalSection; LeaveCriticalSection].
Proof. reflexivity. Qed.

(** ScheduleForDelayedCall, the [update] at tick 5: nothing is due. *)
Example delayed_call_calls :
  fst <$> update_cpu idle_cpu 3 5 two_tasks =
  Some [GetSystemTick; EnterCriticalSection; LeaveCriticalSection].
Proof. reflexivity. Qed.
End ExpectedCalls.

(** ** The further properties at concrete states *)

Section FurtherInstances.
Import Scenarios.

Local Ltac absent :=
  let H := fresh in
  intros H;
  repeat (apply elem_of_cons in H as [H|H]; [discriminate H|]);
  by apply elem_of_nil in H.

Local Ltac windowed :=
  repeat first
    [ apply Forall_nil_2 | apply Forall_cons_2; [by vm_compute|] ].

Lemma update_calls_well_bracketed_witness :
  ∃ m, update_cpu idle_cpu 3 20 two_tasks = Some m ∧
       well_bracketed false m.1 = true ∧
       head m.1 = Some GetSystemTick ∧
       update_loop (λ f p s0, (idle_cpu f p s0).2) 3 20 two_tasks = Some m.2.
Proof.
  eexists. split; [reflexivity|].
  apply (update_calls_well_bracketed idle_cpu 3 20 two_tasks);
    [intros; reflexivity|reflexivity].
Defined.

Lemma update_calls_idle_witness :
  wf 10 two_tasks ∧
  ∃ s',
    update_cpu idle_cpu (S (_taskCount two_tasks)) 10 two_tasks =
      Some (GetSystemTick ::
            flat_map dispatch_calls (due_prefix 10 (live two_tasks)) ++
            final_calls 10 (live two_tasks),
            (due_prefix 10 (live two_tasks), s')) ∧
    live s' = due_rest 10 (live two_tasks) ∧
    (final_calls 10 (live two_tasks) = [] ↔
       live two_tasks ≠ [] ∧ due_rest 10 (live two_tasks) = []).
Proof.
  split; [apply two_tasks_wf|].
  exact (update_calls_idle 10 10 two_tasks two_tasks_wf).
Defined.

Lemma two_tasks_ids : ids two_tasks = [1%Z; 2%Z].
Proof. by vm_compute. Defined.

Lemma unscheduleTask_present_witness :
  wf 10 two_tasks ∧ (1%Z ∈ ids two_tasks) ∧
  ∃ l1 t l2,
    live two_tasks = l1 ++ t :: l2 ∧ id t = 1%Z ∧ (1%Z ∉ id <$> l1) ∧
    live (unscheduleTask 1 two_tasks) = l1 ++ l2 ∧
    S (_taskCount (unscheduleTask 1 two_tasks)) = _taskCount two_tasks ∧
    wf 10 (unscheduleTask 1 two_tasks).
Proof.
  assert (1%Z ∈ ids two_tasks) as Hin.
  { rewrite two_tasks_ids. apply list_elem_of_here. }
  split_and!; [apply two_tasks_wf|exact Hin|].
  exact (unscheduleTask_present 10 1 two_tasks two_tasks_wf Hin).
Defined.

Lemma table_bounds_kept_witness :
  wf 10 two_tasks ∧
  wf 10 (scheduleTask 10 0 tt None 5 0 two_tasks).2 ∧
  wf 10 (unscheduleTask 1 two_tasks) ∧
  length (live two_tasks) = _taskCount two_tasks.
Proof.
  destruct (table_bounds_kept 10 two_tasks two_tasks_wf)
    as (Hschedule & Hunschedule & _ & Hlive).
  split_and!; [apply two_tasks_wf|apply Hschedule|apply Hunschedule|exact Hlive].
Defined.

Lemma two_tasks_free : _taskCount two_tasks < 10.
Proof. vm_compute. lia. Defined.

Lemma fresh_schedule_keeps_tasks_witness :
  wf 10 two_tasks ∧ _taskCount two_tasks < 10 ∧
  live two_tasks `sublist_of` live (scheduleTask 10 0 tt None 15 0 two_tasks).2 ∧
  live (scheduleTask 10 0 tt None 15 0 two_tasks).2 ≡ₚ
    mkTask (U32.add 0 15) (Some tt) None (_id two_tasks) :: live two_tasks ∧
  _taskCount (scheduleTask 10 0 tt None 15 0 two_tasks).2 =
    S (_taskCount two_tasks).
Proof.
  split_and!; [apply two_tasks_wf|apply two_tasks_free|..];
    apply (fresh_schedule_keeps_tasks 10 0 tt None 15 two_tasks
             two_tasks_wf two_tasks_free).
Defined.

Lemma reuse_replaces_witness :
  wf 10 two_tasks ∧ 1%Z ≠ 0%Z ∧ (1%Z ∈ ids two_tasks) ∧
  (scheduleTask 10 0 tt None 30 1 two_tasks).1 = 1%Z ∧
  _taskCount (scheduleTask 10 0 tt None 30 1 two_tasks).2 =
    _taskCount two_tasks.
Proof.
  assert (1%Z ≠ 0%Z) as Hreuse by discriminate.
  assert (1%Z ∈ ids two_tasks) as Hin.
  { rewrite two_tasks_ids. apply list_elem_of_here. }
  destruct (reuse_replaces 10 0 tt None 30 1 two_tasks two_tasks_wf Hreuse Hin)
    as (Hret & Hcount & _).
  split_and!; [apply two_tasks_wf|exact Hreuse|exact Hin|exact Hret|exact Hcount].
Defined.

Lemma schedule_all_fills_witness :
  (Z.of_nat 10 + 1 < U32.modulus)%Z ∧
  (schedule_all 10 (replicate 20 (0%Z, tt, None (A:=nat), 20%Z)) (init 10)).1 =
    (Z.of_nat <$> seq 1 (length (replicate 20 (0%Z, tt, None (A:=nat), 20%Z)) `min` 10)) ++
    replicate (length (replicate 20 (0%Z, tt, None (A:=nat), 20%Z)) - 10) 0%Z.
Proof.
  assert (Z.of_nat 10 + 1 < U32.modulus)%Z as HN by (by vm_compute).
  split; [exact HN|].
  apply (schedule_all_fills 10 (replicate 20 (0%Z, tt, None, 20%Z)) HN).
Defined.

Lemma update_fires_once_witness :
  wf 10 two_tasks ∧
  ∃ fired s', update 10 two_tasks = Some (fired, s') ∧
              update 10 s' = Some ([], s').
Proof.
  split; [apply two_tasks_wf|].
  eexists _, _. split; [reflexivity|].
  eapply (update_fires_once 10 10 two_tasks); [apply two_tasks_wf|reflexivity].
Defined.

Lemma update_early_return_witness :
  wf 10 claimed_id ∧
  live claimed_id = [mkTask 10 (Some tt) (Some 0) 1] ∧
  due 10 (mkTask 10 (Some tt) (Some 0) 1) ∧
  ∃ s',
    update_loop (λ _ _ s0, (scheduleTask 10 10 tt (Some 7) 0 0 s0).2)
                1 10 claimed_id =
      Some ([mkTask 10 (Some tt) (Some 0) 1], s') ∧
    live s' = [mkTask (U32.add 10 0) (Some tt) (Some 7) (_id claimed_id)] ∧
    _taskCount s' = 1.
Proof.
  assert (wf 10 claimed_id) as Hwf.
  { split; [reflexivity|vm_compute; lia]. }
  assert (live claimed_id = [mkTask 10 (Some tt) (Some 0) 1]) as Hlive
    by reflexivity.
  assert (due 10 (mkTask 10 (Some tt) (Some 0) 1)) as Hdue
    by (by vm_compute).
  split_and!; [exact Hwf|exact Hlive|exact Hdue|].
  destruct (update_early_return 10 10 claimed_id _ Hwf Hlive Hdue)
    as (_ & Hpending & _).
  apply (Hpending tt (Some 7) 0%Z 0).
Defined.

Lemma single_task_timing_witness :
  1 ≤ 10 ∧ (0 ≤ 20 < U32.half)%Z ∧ (0 ≤ 19 < 20)%Z ∧
  update_loop idle 1 (U32.wrap (4294967286 + 19))
              (scheduleTask 10 4294967286 tt (None (A:=nat)) 20 0 (init 10)).2 =
  Some ([], (scheduleTask 10 4294967286 tt None 20 0 (init 10)).2).
Proof.
  assert (0 ≤ 20 < U32.half)%Z as Hdelay by (by vm_compute).
  split; [lia|]. split; [exact Hdelay|]. split; [lia|].
  apply (proj1 (single_task_timing 10 4294967286 tt None 20 19 idle 0
                  ltac:(lia) Hdelay)).
  lia.
Defined.

Lemma long_delay_fires_at_once_witness :
  1 ≤ 10 ∧ (U32.half < 3000000000 < U32.modulus)%Z ∧
  ∃ s', update_loop idle 1 0
          (scheduleTask 10 0 tt (None (A:=nat)) 3000000000 0 (init 10)).2 =
        Some ([mkTask (U32.add 0 3000000000) (Some tt) None 1], s').
Proof.
  assert (U32.half < 3000000000 < U32.modulus)%Z as Hdelay by (by vm_compute).
  split; [lia|]. split; [exact Hdelay|].
  exact (long_delay_fires_at_once 10 0 tt None 3000000000 idle 0
           ltac:(lia) Hdelay).
Defined.

Lemma schedule_position_witness :
  wf 10 two_tasks ∧ _taskCount two_tasks < 10 ∧ table_sorted two_tasks ∧
  in_window 0 (U32.add 0 15 :: times two_tasks) ∧
  live (scheduleTask 10 0 tt None 15 0 two_tasks).2 =
    filter (due (U32.add 0 15)) (live two_tasks) ++
    mkTask (U32.add 0 15) (Some tt) None (_id two_tasks) ::
    filter (λ t, ¬ due (U32.add 0 15) t) (live two_tasks).
Proof.
  assert (in_window 0 (U32.add 0 15 :: times two_tasks)) as Hwin.
  { assert (times two_tasks = [10%Z; 20%Z]) as -> by (by vm_compute).
    unfold in_window. windowed. }
  split_and!;
    [apply two_tasks_wf|apply two_tasks_free|apply two_tasks_sorted
    |exact Hwin|].
  exact (schedule_position 10 0 0 tt None 15 two_tasks
           two_tasks_wf two_tasks_free two_tasks_sorted Hwin).
Defined.
End FurtherInstances.
